(** * A B-tree with insertion, search and in-order traversal

    Shallow embedding of [include/btree_node.h] and [include/btree.h]
    (class templates [BTreeNode<T>] and [BTree<T>], instantiated at
    [T = int] as in [tests/test_btree.cpp]), and of the two functions of
    [tests/test_btree.cpp] that walk a tree.

    Conventions of the embedding.
    - C++ [int] values ([t], [n], loop indices) are integers of [Z], and
      the arithmetic on them is exact.  In the program every such value
      stays between [-1] and [2 * t]; the product [2 * t] itself, which the
      constructor of a node computes, overflows for
      [2 * t > INT_MAX = 2147483647].  The embedding is the program for the
      degrees below that: every theorem about the trees built from
      [BTree(tt)] assumes [2 * tt <= 2147483647], and the theorems about a
      given node assume vectors of the sizes the constructor gives.  Keys
      are only copied and compared, they are [Z] as well.
    - A [std::vector] is a list; [v[i]] outside [0 .. size-1] is undefined
      behaviour in C++ and fails ([None]) here, see [vget] and [vset].
    - A child pointer is an [option]: [None] is [nullptr].  Every node is
      owned by exactly one parent slot, so a pointer to a node is modelled
      by the node itself; a write through the pointer is written back to
      the owning slot.
    - A method that mutates [*this] takes the receiver and returns the new
      receiver, inside [option]: [None] stands for undefined behaviour
      (out-of-range access, null dereference, a throwing [resize]) or for
      an exhausted recursion budget.
    - A destructor is modelled by what it frees: it returns the nodes
      handed to [delete], in the order in which they are freed.
    - A [while] loop and a recursive descent take a budget [fuel]: a loop
      over the keys of a node gets [n] iterations, the public operations
      of [BTree] start the descent with the depth of the node they start
      from.  The theorems show that the budget is never used up. *)

From stdpp Require Import base option list numbers sorting relations.
From Stdlib Require Import ZArith Lia.

Set Warnings "-register-all".
Local Open Scope Z_scope.

(** ** Vectors and loops *)

(** [v[i]] as an rvalue. *)
Definition vget {A} (v : list A) (i : Z) : option A :=
  if decide (0 ≤ i) then v !! Z.to_nat i else None.

(** [v[i] = a]. *)
Definition vset {A} (v : list A) (i : Z) (a : A) : option (list A) :=
  if decide (0 ≤ i < Z.of_nat (length v)) then Some (<[Z.to_nat i := a]> v)
  else None.

(** [for (j = lo; j < lo + cnt; j++) body], threading the state [s]. *)
Fixpoint for_up {S} (cnt : nat) (j : Z) (body : Z → S → option S) (s : S)
  : option S :=
  match cnt with
  | O => Some s
  | S c => s' ← body j s; for_up c (j + 1) body s'
  end.

(** [for (j = hi; j > hi - cnt; j--) body], threading the state [s]. *)
Fixpoint for_down {S} (cnt : nat) (j : Z) (body : Z → S → option S) (s : S)
  : option S :=
  match cnt with
  | O => Some s
  | S c => s' ← body j s; for_down c (j - 1) body s'
  end.

(** ** BTreeNode *)

Module BTreeNode.

Inductive node : Type := mk {
  t : Z;
  is_leaf : bool;
  n : Z;
  keys : list Z;
  children : list (option node)
}.

(** [x] with the child vector [v]. *)
Definition set_children (x : node) (v : list (option node)) : node :=
  mk (t x) (is_leaf x) (n x) (keys x) v.

(** Not a member of the class: the number of nodes on the longest path that
    follows non-null child slots downwards from [x]; the recursion budget
    the public operations start with. *)
Fixpoint depth (x : node) : nat :=
  match x with
  | mk _ _ _ _ cs =>
      S (foldr (λ oc acc,
                 match oc with
                 | Some c => Nat.max (depth c) acc
                 | None => acc
                 end) O cs)
  end.

(** [BTreeNode(int _t, bool _is_leaf)]: [keys.resize(2 * t - 1)] value
    initialises the keys, [children.resize(2 * t, nullptr)]; a negative
    size makes [resize] throw.  The sizes are the exact integers: the
    definition is the constructor for [2 * _t <= INT_MAX] only, see the
    conventions above. *)
Definition new_node (_t : Z) (_is_leaf : bool) : option node :=
  if decide (0 ≤ 2 * _t - 1) then
    Some (mk _t _is_leaf 0
            (replicate (Z.to_nat (2 * _t - 1)) 0)
            (replicate (Z.to_nat (2 * _t)) None))
  else None.

(** [p->...]: dereference of a child slot. *)
Definition deref (p : option (option node)) : option node := p ≫= id.

(** [split_child(i, y)], with [y == children[i]] as at both call sites
    and in the method's contract. *)
Definition split_child (this : node) (i : Z) : option node :=
  y ← deref (vget (children this) i);
  z ← new_node (t y) (is_leaf y);
  (* z->n = t - 1;  for (j = 0; j < t - 1; j++) z->keys[j] = y->keys[j + t]; *)
  zkeys ← for_up (Z.to_nat (t this - 1)) 0
           (λ j zk, v ← vget (keys y) (j + t this); vset zk j v) (keys z);
  (* if (!y->is_leaf) for (j = 0; j < t; j++)
       { z->children[j] = y->children[j + t]; y->children[j + t] = nullptr; } *)
  '(zch, ych) ←
    (if is_leaf y then Some (children z, children y)
     else for_up (Z.to_nat (t this)) 0
            (λ j '(zc, yc),
               c ← vget yc (j + t this);
               zc' ← vset zc j c;
               yc' ← vset yc (j + t this) None;
               Some (zc', yc'))
            (children z, children y));
  (* y->n = t - 1; *)
  let y' := mk (t y) (is_leaf y) (t this - 1) (keys y) ych in
  let z' := mk (t z) (is_leaf z) (t this - 1) zkeys zch in
  ch0 ← vset (children this) i (Some y');
  (* for (j = n; j >= i + 1; j--) children[j + 1] = children[j]; *)
  ch1 ← for_down (Z.to_nat (n this - i)) (n this)
          (λ j ch, c ← vget ch j; vset ch (j + 1) c) ch0;
  (* children[i + 1] = z; *)
  ch2 ← vset ch1 (i + 1) (Some z');
  (* for (j = n - 1; j >= i; j--) keys[j + 1] = keys[j]; *)
  ks1 ← for_down (Z.to_nat (n this - i)) (n this - 1)
          (λ j ks, v ← vget ks j; vset ks (j + 1) v) (keys this);
  (* keys[i] = y->keys[t - 1]; *)
  mid ← vget (keys y') (t this - 1);
  ks2 ← vset ks1 i mid;
  (* n = n + 1; *)
  Some (mk (t this) (is_leaf this) (n this + 1) ks2 ch2).

(** [while (i >= 0 && keys[i] > k) { keys[i + 1] = keys[i]; i--; }] *)
Fixpoint shift_keys (fuel : nat) (ks : list Z) (i k : Z)
  : option (list Z * Z) :=
  if decide (0 ≤ i) then
    ki ← vget ks i;
    if decide (ki > k) then
      match fuel with
      | O => None
      | S fuel' => ks' ← vset ks (i + 1) ki; shift_keys fuel' ks' (i - 1) k
      end
    else Some (ks, i)
  else Some (ks, i).

(** [while (i >= 0 && keys[i] > k) i--;] *)
Fixpoint find_child (fuel : nat) (ks : list Z) (i k : Z) : option Z :=
  if decide (0 ≤ i) then
    ki ← vget ks i;
    if decide (ki > k) then
      match fuel with
      | O => None
      | S fuel' => find_child fuel' ks (i - 1) k
      end
    else Some i
  else Some i.

(** [insert_non_full(k)]: the leaf branch shifts the greater keys and
    stores [k]; the internal branch picks the child, splits it if it is
    full, and descends. *)
Fixpoint insert_non_full (fuel : nat) (this : node) (k : Z) : option node :=
  match fuel with
  | O => None
  | S fuel' =>
      let i := n this - 1 in
      if is_leaf this then
        '(ks, i) ← shift_keys (Z.to_nat (n this)) (keys this) i k;
        ks' ← vset ks (i + 1) k;
        Some (mk (t this) (is_leaf this) (n this + 1) ks' (children this))
      else
        i ← find_child (Z.to_nat (n this)) (keys this) i k;
        c ← deref (vget (children this) (i + 1));
        '(this, i) ←
          (if decide (n c = 2 * t this - 1) then
             this' ← split_child this (i + 1);
             ki ← vget (keys this') (i + 1);
             Some (this', if decide (ki < k) then i + 1 else i)
           else Some (this, i));
        c ← deref (vget (children this) (i + 1));
        c' ← insert_non_full fuel' c k;
        ch ← vset (children this) (i + 1) (Some c');
        Some (set_children this ch)
  end.

(** [traverse()]: the keys written to [std::cout], in order. *)
Fixpoint traverse (fuel : nat) (this : node) : option (list Z) :=
  match fuel with
  | O => None
  | S fuel' =>
      let visit (i : Z) (out : list Z) : option (list Z) :=
        if is_leaf this then Some out
        else
          c ← vget (children this) i;
          match c with
          | None => Some out
          | Some c => o ← traverse fuel' c; Some (out ++ o)
          end in
      out ← for_up (Z.to_nat (n this)) 0
              (λ i out,
                 out ← visit i out;
                 ki ← vget (keys this) i;
                 Some (out ++ [ki])) [];
      visit (Z.max 0 (n this)) out
  end.

(** [while (i < n && k > keys[i]) i++;] *)
Fixpoint scan (fuel : nat) (ks : list Z) (n i k : Z) : option Z :=
  if decide (i < n) then
    ki ← vget ks i;
    if decide (k > ki) then
      match fuel with
      | O => None
      | S fuel' => scan fuel' ks n (i + 1) k
      end
    else Some i
  else Some i.

(** [search(k)]: the inner option is the returned pointer. *)
Fixpoint search (fuel : nat) (this : node) (k : Z) : option (option node) :=
  match fuel with
  | O => None
  | S fuel' =>
      i ← scan (Z.to_nat (n this)) (keys this) (n this) 0 k;
      found ← (if decide (i < n this) then
                 ki ← vget (keys this) i; Some (bool_decide (ki = k))
               else Some false);
      if (found : bool) then Some (Some this)
      else if is_leaf this then Some None
      else
        c ← vget (children this) i;
        match c with
        | None => if decide (i ≤ n this) then Some None else None
        | Some c => search fuel' c k
        end
  end.

(** [search(k)] once more, now with the receiver after the call: the
    method is not [const], so like [insert_non_full] it hands back the
    node it was called on.  No statement of the method assigns to a field;
    the receiver of the recursive call is the node in slot [i], and what
    that call leaves of it is written back to the slot. *)
Fixpoint search_st (fuel : nat) (this : node) (k : Z)
  : option (node * option node) :=
  match fuel with
  | O => None
  | S fuel' =>
      i ← scan (Z.to_nat (n this)) (keys this) (n this) 0 k;
      found ← (if decide (i < n this) then
                 ki ← vget (keys this) i; Some (bool_decide (ki = k))
               else Some false);
      if (found : bool) then Some (this, Some this)
      else if is_leaf this then Some (this, None)
      else
        c ← vget (children this) i;
        match c with
        | None => if decide (i ≤ n this) then Some (this, None) else None
        | Some c =>
            '(c', p) ← search_st fuel' c k;
            ch ← vset (children this) i (Some c');
            Some (set_children this ch, p)
        end
  end.

(** [~BTreeNode()]: the pointers handed to [delete], in the order in which
    the nodes are freed.  [delete children[i]] first runs the destructor of
    the child, which frees the nodes below it, and then frees the child;
    the slot is set to [nullptr] afterwards. *)
Fixpoint destroy (fuel : nat) (this : node) : option (list node) :=
  match fuel with
  | O => None
  | S fuel' =>
      if is_leaf this then Some []
      else
        '(_, freed) ←
          for_up (Z.to_nat (n this + 1)) 0
            (λ i '(ch, freed),
               c ← vget ch i;
               match c with
               | None => Some (ch, freed)
               | Some c =>
                   below ← destroy fuel' c;
                   ch' ← vset ch i None;
                   Some (ch', freed ++ below ++ [c])
               end)
            (children this, []);
        Some freed
  end.

End BTreeNode.

(** ** BTree *)

Module BTree.
Import BTreeNode.

Record tree : Type := mk {
  root : option node;
  t : Z
}.

(** [BTree(int _t)] *)
Definition new (_t : Z) : tree := mk None _t.

(** [traverse()]: nothing for the empty tree. *)
Definition traverse (tr : tree) : option (list Z) :=
  match root tr with
  | None => Some []
  | Some r => BTreeNode.traverse (depth r) r
  end.

(** [search(k)]: [root == nullptr ? false : root->search(k) != nullptr]. *)
Definition search (tr : tree) (k : Z) : option bool :=
  match root tr with
  | None => Some false
  | Some r =>
      p ← BTreeNode.search (depth r) r k;
      Some (match p with Some _ => true | None => false end)
  end.

(** [search(k)] with the tree after the call.  The method is [const], which
    protects the members [root] and [t] but not the node [root] points to,
    and [BTreeNode::search] is not [const]: the root after the call is what
    [root->search(k)] leaves of it. *)
Definition search_st (tr : tree) (k : Z) : option (tree * bool) :=
  match root tr with
  | None => Some (tr, false)
  | Some r =>
      '(r', p) ← BTreeNode.search_st (depth r) r k;
      Some (mk (Some r') (t tr), match p with Some _ => true | None => false end)
  end.

(** [insert(k)]: a first leaf for the empty tree; a new root above a full
    root, split at once; [insert_non_full] on the root otherwise. *)
Definition insert (tr : tree) (k : Z) : option tree :=
  match root tr with
  | None =>
      r ← new_node (t tr) true;
      ks ← vset (keys r) 0 k;
      Some (mk (Some (BTreeNode.mk (BTreeNode.t r) (is_leaf r) 1 ks
                        (children r))) (t tr))
  | Some r =>
      if decide (n r = 2 * t tr - 1) then
        s ← new_node (t tr) false;
        ch ← vset (children s) 0 (Some r);
        s ← split_child (set_children s ch) 0;
        k0 ← vget (keys s) 0;
        let i := if decide (k0 < k) then 1 else 0 in
        c ← deref (vget (children s) i);
        c' ← insert_non_full (depth c) c k;
        ch' ← vset (children s) i (Some c');
        Some (mk (Some (set_children s ch')) (t tr))
      else
        r' ← insert_non_full (depth r) r k;
        Some (mk (Some r') (t tr))
  end.

(** [~BTree()]: [delete root; root = nullptr;], the nodes freed in order;
    [delete] of a null pointer does nothing. *)
Definition destroy (tr : tree) : option (list node) :=
  match root tr with
  | None => Some []
  | Some r => below ← BTreeNode.destroy (depth r) r; Some (below ++ [r])
  end.

(** Not a member of the class: the number of levels of the tree, [0] for
    the empty tree. *)
Definition height (tr : tree) : nat :=
  match root tr with
  | None => O
  | Some r => depth r
  end.

(** Not a member of the class: [insert] for each key of [ks] in turn,
    starting from [tr]. *)
Fixpoint insert_all (tr : tree) (ks : list Z) : option tree :=
  match ks with
  | [] => Some tr
  | k :: ks' => tr' ← insert tr k; insert_all tr' ks'
  end.

End BTree.

(** ** The helpers of [tests/test_btree.cpp] *)

Module Tests.

(** [collect_keys_recursive(node, keys_collected)]: a second in-order walk,
    which tests the pointer it is given instead of the child slot before
    the call; the result is the vector [keys_collected] after the call. *)
Fixpoint collect_keys_recursive (fuel : nat) (node : option BTreeNode.node)
    (keys_collected : list Z) : option (list Z) :=
  match node with
  | None => Some keys_collected
  | Some x =>
      match fuel with
      | O => None
      | S fuel' =>
          let visit (i : Z) (out : list Z) : option (list Z) :=
            if BTreeNode.is_leaf x then Some out
            else
              c ← vget (BTreeNode.children x) i;
              collect_keys_recursive fuel' c out in
          out ← for_up (Z.to_nat (BTreeNode.n x)) 0
                  (λ i out,
                     out ← visit i out;
                     ki ← vget (BTreeNode.keys x) i;
                     Some (out ++ [ki])) keys_collected;
          visit (Z.max 0 (BTreeNode.n x)) out
      end
  end.

(** [get_all_keys(tree)] *)
Definition get_all_keys (tree : BTree.tree) : option (list Z) :=
  match BTree.root tree with
  | None => Some []
  | Some r => collect_keys_recursive (BTreeNode.depth r) (Some r) []
  end.

End Tests.

(** * Vocabulary of the specification *)

Section specification.
Import BTreeNode.

(** What is left in [y] once its upper half has moved out. *)
Definition split_left (tt : Z) (y : node) : node :=
let T := Z.to_nat tt in
mk (t y) (is_leaf y) (tt - 1) (keys y)
   (if is_leaf y then children y
    else take T (children y) ++ replicate T None
           ++ drop (2 * T) (children y)).

(** The sibling [z] allocated by the split. *)
Definition split_right (tt : Z) (y : node) : node :=
let T := Z.to_nat tt in
mk (t y) (is_leaf y) (tt - 1)
   (take (T - 1) (drop T (keys y)) ++ replicate T 0)
   (if is_leaf y then replicate (2 * T) None
    else take T (drop T (children y)) ++ replicate T None).

(** [k0 :: c0 ++ k1 :: c1 ++ ...]: each key followed by the subtree to
  its right. *)
Fixpoint iright (ks : list Z) (cs : list (list Z)) : list Z :=
match ks, cs with
| k :: ks', c :: cs' => k :: c ++ iright ks' cs'
| _, _ => []
end.

(** [c0 ++ k0 :: c1 ++ k1 :: ...]: each subtree followed by the key to
  its right. *)
Fixpoint ileft (cs : list (list Z)) (ks : list Z) : list Z :=
match cs, ks with
| c :: cs', k :: ks' => c ++ k :: ileft cs' ks'
| _, _ => []
end.

(** The in-order sequence of a node whose subtrees have the sequences
  [cs] and whose keys are [ks]. *)
Definition interleave (cs : list (list Z)) (ks : list Z) : list Z :=
match cs with
| [] => []
| c :: cs' => c ++ iright ks cs'
end.

(** The keys a node holds: the first [n] entries of its key vector. *)
Definition lkeys (x : node) : list Z := take (Z.to_nat (n x)) (keys x).

(** In-order sequence of the subtree of [x], for a subtree of at most
  [h] levels; null child slots contribute nothing. *)
Fixpoint elems (h : nat) (x : node) : list Z :=
match h with
| O => []
| S h' =>
    if is_leaf x then lkeys x
    else interleave
           (from_option (elems h') [] <$>
              take (Z.to_nat (n x + 1)) (children x))
           (lkeys x)
end.

(** [wf h x]: [x] is the root of a subtree with [h] levels in which
  every node has the vector sizes set by the constructor, a key count
  within the capacity, null child slots only if it is a leaf or past
  its [n + 1] children, and at least [tt - 1] keys if it is not the
  root of the subtree. *)
Fixpoint wf (tt : Z) (h : nat) (x : node) : Prop :=
match h with
| O => False
| S h' =>
    t x = tt ∧
    length (keys x) = Z.to_nat (2 * tt - 1) ∧
    0 ≤ n x ≤ 2 * tt - 1 ∧
    if is_leaf x then
      h' = O ∧ children x = replicate (Z.to_nat (2 * tt)) None
    else
      ∃ cs,
        children x
        = (Some <$> cs) ++ replicate (Z.to_nat (2 * tt - n x - 1)) None ∧
        length cs = Z.to_nat (n x + 1) ∧
        Forall (λ c, wf tt h' c ∧ tt - 1 ≤ n c) cs
end.

(** [l'] is [l] with one [k] put between a left neighbour that is not
  greater and a right neighbour that is not smaller. *)
Definition inserted_at (k : Z) (l l' : list Z) : Prop :=
∃ L R, l = L ++ R ∧ l' = L ++ k :: R ∧
       (∀ x, last L = Some x → x ≤ k) ∧ (∀ y, head R = Some y → k ≤ y).

(** [k] put into the sorted list [l], after the keys equal to it. *)
Fixpoint insert_sorted (k : Z) (l : list Z) : list Z :=
match l with
| [] => [k]
| x :: l' => if decide (k < x) then k :: x :: l' else x :: insert_sorted k l'
end.

(** What [insert_non_full] is shown to do on subtrees of [h] levels. *)
Definition insert_ok (tt : Z) (h : nat) : Prop :=
∀ x k fuel,
  wf tt h x → n x < 2 * tt - 1 → (h ≤ fuel)%nat →
  ∃ x', insert_non_full fuel x k = Some x' ∧
        wf tt h x' ∧ n x ≤ n x' ∧
        inserted_at k (elems h x) (elems h x').

(** The tree has minimum degree [tt] and a well-formed root, if any. *)
Definition tree_wf (tt : Z) (tr : BTree.tree) : Prop :=
BTree.t tr = tt ∧
match BTree.root tr with
| None => True
| Some r => ∃ h, wf tt h r
end.

(** In-order sequence of the keys of the tree. *)
Definition tree_elems (tr : BTree.tree) : list Z :=
match BTree.root tr with
| None => []
| Some r => elems (depth r) r
end.

(** What holds of every tree built by [insert] calls alone. *)
Definition tree_inv (tt : Z) (tr : BTree.tree) : Prop :=
tree_wf tt tr ∧ StronglySorted Z.le (tree_elems tr).

(** [c] is the node in child slot [i] of the internal node [x]. *)
Definition child_at (x : BTreeNode.node) (i : Z) (c : BTreeNode.node) : Prop :=
BTreeNode.is_leaf x = false ∧ 0 ≤ i ≤ BTreeNode.n x ∧
vget (BTreeNode.children x) i = Some (Some c).

(** [c] is a child of [x]. *)
Definition child (x c : BTreeNode.node) : Prop := ∃ i, child_at x i c.

(** [y] is a node of the tree: the root or one of its descendants. *)
Definition in_tree (tr : BTree.tree) (y : BTreeNode.node) : Prop :=
∃ r, BTree.root tr = Some r ∧ rtc child r y.

(** [k] is one of the [n] keys of the node [y]. *)
Definition holds_key (y : BTreeNode.node) (k : Z) : Prop :=
∃ j, 0 ≤ j < BTreeNode.n y ∧ vget (BTreeNode.keys y) j = Some k.

(** [k] is a key of the subtree rooted at [c]. *)
Definition subtree_key (c : BTreeNode.node) (k : Z) : Prop :=
∃ y, rtc child c y ∧ holds_key y k.

(** The number of non-null slots of a child vector. *)
Definition non_null (cs : list (option BTreeNode.node)) : nat :=
length (omap id cs).

(** A call of one of the three public methods of [BTree]. *)
Inductive op : Type :=
| OpInsert (k : Z)
| OpSearch (k : Z)
| OpTraverse.

(** What the caller gets back. *)
Inductive reply : Type :=
| RUnit
| RBool (b : bool)
| RKeys (l : list Z).

(** One call: the tree after the call and the reply.  [insert] and
  [search] give the tree they leave.  [traverse] is [const] in [BTree] and
  in [BTreeNode], and calls nothing but itself on the children: it has no
  way to write to a node, the tree after it is the tree before it. *)
Definition run (tr : BTree.tree) (o : op) : option (BTree.tree * reply) :=
match o with
| OpInsert k => tr' ← BTree.insert tr k; Some (tr', RUnit)
| OpSearch k => '(tr', b) ← BTree.search_st tr k; Some (tr', RBool b)
| OpTraverse => l ← BTree.traverse tr; Some (tr, RKeys l)
end.

(** A sequence of calls. *)
Fixpoint run_all (tr : BTree.tree) (os : list op)
: option (BTree.tree * list reply) :=
match os with
| [] => Some (tr, [])
| o :: os' =>
    '(tr1, r) ← run tr o;
    '(tr2, rs) ← run_all tr1 os';
    Some (tr2, r :: rs)
end.

(** Every key of the subtree in child slot [i] of a node of the tree is in
  relation [R] with the node's key [i] (from the left) and key [i - 1]
  (from the right). *)
Definition separates (R : relation Z) (tr : BTree.tree) : Prop :=
∀ x i c k',
  in_tree tr x → child_at x i c → subtree_key c k' →
  (∀ ki, i < BTreeNode.n x → vget (BTreeNode.keys x) i = Some ki → R k' ki) ∧
  (∀ kp, 0 < i → vget (BTreeNode.keys x) (i - 1) = Some kp → R kp k').

(** The bounds on the number of keys and children of the nodes of a tree of
  minimum degree [tt]. *)
Definition fanout (tt : Z) (tr : BTree.tree) : Prop :=
∀ r, BTree.root tr = Some r →
  0 ≤ BTreeNode.n r ≤ 2 * tt - 1 ∧
  (∀ y, tc child r y → tt - 1 ≤ BTreeNode.n y ≤ 2 * tt - 1) ∧
  (∀ y, rtc child r y → BTreeNode.is_leaf y = false →
        Z.of_nat (non_null (BTreeNode.children y)) = BTreeNode.n y + 1 ∧
        ∀ i, 0 ≤ i ≤ BTreeNode.n y →
             ∃ c, vget (BTreeNode.children y) i = Some (Some c)).

(** Every node linked below [x]: the nodes in the non-null slots of the
  whole child vector of [x], whatever [n] and [is_leaf] say, and the nodes
  linked below them; slot by slot, each subtree before its root. *)
Fixpoint linked_below (x : node) : list node :=
match x with
| mk _ _ _ _ cs =>
    foldr (λ oc acc,
             match oc with
             | Some c => linked_below c ++ c :: acc
             | None => acc
             end) [] cs
end.

(** Every node linked into the tree, the root last. *)
Definition tree_nodes (tr : BTree.tree) : list node :=
match BTree.root tr with
| None => []
| Some r => linked_below r ++ [r]
end.

End specification.

(** * Vector accesses on a list split at the accessed position *)

Section vectors.
Context {A : Type}.
Implicit Types (v l : list A) (a b : A).

Lemma vget_middle l1 l2 a i :
  i = Z.of_nat (length l1) → vget (l1 ++ a :: l2) i = Some a.
Proof.
  intros ->. unfold vget. rewrite decide_True by lia.
  rewrite Nat2Z.id. by apply list_lookup_middle.
Qed.

Lemma vset_middle l1 l2 a b i :
  i = Z.of_nat (length l1) → vset (l1 ++ a :: l2) i b = Some (l1 ++ b :: l2).
Proof.
  intros ->. unfold vset. rewrite decide_True.
  - rewrite Nat2Z.id. f_equal.
    replace (length l1) with (length l1 + 0)%nat at 1 by lia.
    by rewrite insert_app_r.
  - rewrite length_app. simpl. lia.
Qed.

Lemma vget_head l a : vget (a :: l) 0 = Some a.
Proof. by apply (vget_middle [] l a 0). Qed.

Lemma vset_head l a b : vset (a :: l) 0 b = Some (b :: l).
Proof. by apply (vset_middle [] l a b 0). Qed.

Lemma vget_lookup v (j : nat) : vget v (Z.of_nat j) = v !! j.
Proof. unfold vget. rewrite decide_True by lia. by rewrite Nat2Z.id. Qed.

Lemma vget_Some v i a :
  vget v i = Some a ↔ 0 ≤ i ∧ v !! Z.to_nat i = Some a.
Proof. unfold vget. case_decide; [tauto|]. split; [done|]. tauto. Qed.

(** [for (j = hi; j >= lo; j--) v[j + 1] = v[j];] moves the segment
    [lo .. hi] one slot to the right. *)
Lemma for_down_shift (seg : list A) : ∀ l1 d l2 hi,
  hi = Z.of_nat (length l1 + length seg) - 1 →
  for_down (length seg) hi (λ j v, c ← vget v j; vset v (j + 1) c)
    (l1 ++ seg ++ d :: l2)
  = Some (l1 ++ default d (head seg) :: seg ++ l2).
Proof.
  induction seg as [|x seg IH] using rev_ind; intros l1 d l2 hi ->.
  - done.
  - rewrite length_app. simpl. rewrite Nat.add_1_r. simpl.
    rewrite <-(assoc_L (++) seg). simpl. rewrite (assoc_L (++) l1 seg).
    rewrite vget_middle by (rewrite length_app; lia). simpl.
    rewrite (cons_middle x (l1 ++ seg)), (assoc_L (++) (l1 ++ seg)).
    rewrite vset_middle by (rewrite !length_app; simpl; lia). simpl.
    rewrite <-!(assoc_L (++)). simpl.
    rewrite IH by lia. by destruct seg.
Qed.

(** [for (j = 0; j < cnt; j++) dst[j] = src[j + off];] *)
Lemma for_up_copy (off : Z) (src yk : list A) : ∀ done old rest y1 y2 j,
  yk = y1 ++ src ++ y2 →
  length old = length src →
  j = Z.of_nat (length done) →
  Z.of_nat (length y1) = j + off →
  for_up (length src) j (λ j zk, c ← vget yk (j + off); vset zk j c)
    (done ++ old ++ rest)
  = Some (done ++ src ++ rest).
Proof.
  induction src as [|s src IH]; intros done old rest y1 y2 j -> Hlen -> Hy1.
  - by destruct old.
  - destruct old as [|o old]; [done|]. simpl.
    rewrite vget_middle by lia. simpl.
    rewrite vset_middle by lia. simpl.
    rewrite (cons_middle s done), (assoc_L (++) done).
    erewrite (IH _ old rest (y1 ++ [s]) y2).
    + by rewrite <-(assoc_L (++)).
    + by rewrite <-(assoc_L (++)).
    + simpl in Hlen. lia.
    + rewrite length_app. simpl. lia.
    + rewrite length_app. simpl. lia.
Qed.

(** [for (j = 0; j < cnt; j++) { dst[j] = src[j + off]; src[j + off] = null; }] *)
Lemma for_up_move (off : Z) (null : A) (src : list A) :
  ∀ done old rest y1 y2 j,
  length old = length src →
  j = Z.of_nat (length done) →
  Z.of_nat (length y1) = j + off →
  for_up (length src) j
    (λ j '(zc, yc),
       c ← vget yc (j + off);
       zc' ← vset zc j c;
       yc' ← vset yc (j + off) null;
       Some (zc', yc'))
    (done ++ old ++ rest, y1 ++ src ++ y2)
  = Some (done ++ src ++ rest, y1 ++ replicate (length src) null ++ y2).
Proof.
  induction src as [|s src IH]; intros done old rest y1 y2 j Hlen -> Hy1.
  - by destruct old.
  - destruct old as [|o old]; [done|]. simpl.
    rewrite vget_middle by lia. simpl.
    rewrite vset_middle by lia. simpl.
    rewrite vset_middle by lia. simpl.
    rewrite (cons_middle s done), (assoc_L (++) done).
    rewrite (cons_middle null y1), (assoc_L (++) y1).
    erewrite (IH _ old rest (y1 ++ [null]) y2).
    + by rewrite <-!(assoc_L (++)).
    + simpl in Hlen. lia.
    + rewrite length_app. simpl. lia.
    + rewrite !length_app. simpl. lia.
Qed.

End vectors.

(** * The three [while] loops over the keys of a node *)

Section key_loops.
Import BTreeNode.
Implicit Types (ks P Q L R : list Z) (k d : Z).

Lemma shift_keys_unfold fuel ks i k :
  shift_keys fuel ks i k =
  if decide (0 ≤ i) then
    ki ← vget ks i;
    if decide (ki > k) then
      match fuel with
      | O => None
      | S fuel' => ks' ← vset ks (i + 1) ki; shift_keys fuel' ks' (i - 1) k
      end
    else Some (ks, i)
  else Some (ks, i).
Proof. by destruct fuel. Qed.

Lemma find_child_unfold fuel ks i k :
  find_child fuel ks i k =
  if decide (0 ≤ i) then
    ki ← vget ks i;
    if decide (ki > k) then
      match fuel with
      | O => None
      | S fuel' => find_child fuel' ks (i - 1) k
      end
    else Some i
  else Some i.
Proof. by destruct fuel. Qed.

Lemma scan_unfold fuel ks n i k :
  scan fuel ks n i k =
  if decide (i < n) then
    ki ← vget ks i;
    if decide (k > ki) then
      match fuel with
      | O => None
      | S fuel' => scan fuel' ks n (i + 1) k
      end
    else Some i
  else Some i.
Proof. by destruct fuel. Qed.

(** The leaf loop of [insert_non_full] started at the last of the keys
    [P]: the keys greater than [k] form a suffix [R] of [P] and have moved
    one slot to the right; the slot after the rest [L] is free for [k]. *)
Lemma shift_keys_spec k P : ∀ d Q fuel i,
  (length P ≤ fuel)%nat →
  i = Z.of_nat (length P) - 1 →
  ∃ L R d',
    P = L ++ R ∧ Forall (λ x, k < x) R ∧ (∀ x, last L = Some x → x ≤ k) ∧
    shift_keys fuel (P ++ d :: Q) i k
    = Some (L ++ d' :: R ++ Q, Z.of_nat (length L) - 1).
Proof.
  induction P as [|x P IH] using rev_ind; intros d Q fuel i Hfuel ->.
  - exists [], [], d. rewrite shift_keys_unfold. by repeat split.
  - rewrite length_app in *. simpl in *.
    rewrite shift_keys_unfold, decide_True by lia.
    rewrite <-(assoc_L (++)). simpl.
    rewrite vget_middle by lia. simpl.
    destruct (decide (x > k)) as [Hx|Hx].
    + destruct fuel as [|fuel]; [lia|].
      rewrite (cons_middle x P (d :: Q)), (assoc_L (++) P).
      rewrite vset_middle by (rewrite length_app; simpl; lia). simpl.
      rewrite <-(assoc_L (++) P). simpl.
      destruct (IH x (x :: Q) fuel (Z.of_nat (length P + 1) - 1 - 1))
        as (L & R & d' & -> & HR & HL & ->); [lia|lia|].
      exists L, (R ++ [x]), d'. repeat split.
      * by rewrite (assoc_L (++)).
      * apply Forall_app. split; [done|]. apply Forall_singleton. lia.
      * done.
      * by rewrite <-(assoc_L (++) R).
    + exists (P ++ [x]), [], d. repeat split.
      * by rewrite (right_id_L [] (++)).
      * done.
      * intros y. rewrite last_snoc. intros [= <-]. lia.
      * rewrite length_app. simpl. by rewrite <-(assoc_L (++)).
Qed.

(** The loop of [insert_non_full] in an internal node: it stops on the
    last key that is not greater than [k]. *)
Lemma find_child_spec k P : ∀ Q fuel i,
  (length P ≤ fuel)%nat →
  i = Z.of_nat (length P) - 1 →
  ∃ L R,
    P = L ++ R ∧ Forall (λ x, k < x) R ∧ (∀ x, last L = Some x → x ≤ k) ∧
    find_child fuel (P ++ Q) i k = Some (Z.of_nat (length L) - 1).
Proof.
  induction P as [|x P IH] using rev_ind; intros Q fuel i Hfuel ->.
  - exists [], []. rewrite find_child_unfold. by repeat split.
  - rewrite length_app in *. simpl in *.
    rewrite find_child_unfold, decide_True by lia.
    rewrite <-(assoc_L (++)). simpl.
    rewrite vget_middle by lia. simpl.
    destruct (decide (x > k)) as [Hx|Hx].
    + destruct fuel as [|fuel]; [lia|].
      destruct (IH (x :: Q) fuel (Z.of_nat (length P + 1) - 1 - 1))
        as (L & R & -> & HR & HL & ->); [lia|lia|].
      exists L, (R ++ [x]). repeat split.
      * by rewrite (assoc_L (++)).
      * apply Forall_app. split; [done|]. apply Forall_singleton. lia.
      * done.
    + exists (P ++ [x]), []. repeat split.
      * by rewrite (right_id_L [] (++)).
      * done.
      * intros y. rewrite last_snoc. intros [= <-]. lia.
      * rewrite length_app. simpl. done.
Qed.

(** The loop of [search]: it skips the keys smaller than [k]. *)
Lemma scan_spec k Q rest : ∀ D fuel i n,
  (length rest ≤ fuel)%nat →
  Forall (λ x, x < k) D →
  i = Z.of_nat (length D) →
  n = Z.of_nat (length D + length rest) →
  ∃ L R,
    D ++ rest = L ++ R ∧ Forall (λ x, x < k) L ∧
    (∀ x, head R = Some x → k ≤ x) ∧
    scan fuel (D ++ rest ++ Q) n i k = Some (Z.of_nat (length L)).
Proof.
  induction rest as [|x rest IH]; intros D fuel i n Hfuel HD -> ->.
  - exists D, []. rewrite scan_unfold, decide_False by (simpl; lia).
    by repeat split.
  - simpl in *. rewrite scan_unfold, decide_True by lia.
    rewrite vget_middle by lia. simpl.
    destruct (decide (k > x)) as [Hx|Hx].
    + destruct fuel as [|fuel]; [lia|].
      destruct (IH (D ++ [x]) fuel (Z.of_nat (length D) + 1)
                  (Z.of_nat (length D + S (length rest))))
        as (L & R & HLR & HL & HR & Hscan).
      * lia.
      * apply Forall_app. split; [done|]. apply Forall_singleton. lia.
      * rewrite length_app. simpl. lia.
      * rewrite length_app. simpl. lia.
      * exists L, R. repeat split; try done.
        -- by rewrite <-HLR, <-(assoc_L (++)).
        -- by rewrite <-(assoc_L (++)) in Hscan.
    + exists D, (x :: rest). repeat split; try done.
      simpl. intros y [= <-]. lia.
Qed.

End key_loops.

(** * The effect of [split_child] on the vectors *)

Section split.
Import BTreeNode.

Lemma split_keys_of_z (y : node) (tt : Z) :
  1 ≤ tt →
  2 * tt - 1 ≤ Z.of_nat (length (keys y)) →
  for_up (Z.to_nat (tt - 1)) 0
    (λ j zk, v ← vget (keys y) (j + tt); vset zk j v)
    (replicate (Z.to_nat (2 * tt - 1)) 0)
  = Some (take (Z.to_nat tt - 1) (drop (Z.to_nat tt) (keys y))
            ++ replicate (Z.to_nat tt) 0).
Proof.
  intros Ht Hyk.
  destruct (Z_of_nat_complete tt) as [T ->]; [lia|]. rewrite Nat2Z.id.
  set (yr := take (T - 1) (drop T (keys y))).
  assert (Hyr : length yr = (T - 1)%nat).
  { unfold yr. rewrite length_take, length_drop. lia. }
  replace (Z.to_nat (Z.of_nat T - 1)) with (length yr) by lia.
  replace (Z.to_nat (2 * Z.of_nat T - 1)) with (length yr + T)%nat by lia.
  rewrite replicate_add.
  apply (for_up_copy (Z.of_nat T) yr (keys y) [] (replicate (length yr) 0)
           (replicate T 0) (take T (keys y))
           (drop (T - 1) (drop T (keys y))) 0).
  - unfold yr. by rewrite take_drop, take_drop.
  - by rewrite length_replicate.
  - done.
  - rewrite length_take. lia.
Qed.

Lemma split_children_of_z (y : node) (tt : Z) :
  0 ≤ tt →
  2 * tt ≤ Z.of_nat (length (children y)) →
  for_up (Z.to_nat tt) 0
    (λ j '(zc, yc),
       c ← vget yc (j + tt);
       zc' ← vset zc j c;
       yc' ← vset yc (j + tt) None;
       Some (zc', yc'))
    (replicate (Z.to_nat (2 * tt)) None, children y)
  = Some (take (Z.to_nat tt) (drop (Z.to_nat tt) (children y))
            ++ replicate (Z.to_nat tt) None,
          take (Z.to_nat tt) (children y) ++ replicate (Z.to_nat tt) None
            ++ drop (2 * Z.to_nat tt) (children y)).
Proof.
  intros Ht Hyc.
  destruct (Z_of_nat_complete tt) as [T ->]; [lia|]. rewrite Nat2Z.id.
  set (yr := take T (drop T (children y))).
  assert (Hyr : length yr = T).
  { unfold yr. rewrite length_take, length_drop. lia. }
  assert (Hcs : take T (children y) ++ yr ++ drop (T + T) (children y)
                = children y).
  { unfold yr. by rewrite <-drop_drop, take_drop, take_drop. }
  replace (Z.to_nat (2 * Z.of_nat T)) with (T + T)%nat by lia.
  replace (2 * T)%nat with (T + T)%nat by lia.
  rewrite replicate_add.
  pose proof (for_up_move (Z.of_nat T) None yr [] (replicate (length yr) None)
                (replicate T None) (take T (children y))
                (drop (T + T) (children y)) 0) as H.
  rewrite Hyr, Hcs in H. apply H.
  - by rewrite length_replicate.
  - done.
  - rewrite length_take. lia.
Qed.

Lemma for_down_shift_at {A} (seg l1 l2 : list A) (d : A) (cnt : nat) (hi : Z) :
  cnt = length seg →
  hi = Z.of_nat (length l1 + length seg) - 1 →
  for_down cnt hi (λ j v, c ← vget v j; vset v (j + 1) c)
    (l1 ++ seg ++ d :: l2)
  = Some (l1 ++ default d (head seg) :: seg ++ l2).
Proof. intros -> ->. by apply for_down_shift. Qed.

Lemma split_child_shape p i y K1 K2 d J C1 C2 e E :
  keys p = K1 ++ K2 ++ d :: J →
  children p = C1 ++ Some y :: C2 ++ e :: E →
  i = Z.of_nat (length K1) →
  length C1 = length K1 →
  length C2 = length K2 →
  n p = Z.of_nat (length K1 + length K2) →
  t y = t p →
  1 ≤ t p →
  2 * t p - 1 ≤ Z.of_nat (length (keys y)) →
  2 * t p ≤ Z.of_nat (length (children y)) →
  ∃ mid,
    vget (keys y) (t p - 1) = Some mid ∧
    split_child p i =
    Some (mk (t p) (is_leaf p) (n p + 1)
            (K1 ++ mid :: K2 ++ J)
            (C1 ++ Some (split_left (t p) y) :: Some (split_right (t p) y)
                :: C2 ++ E)).
Proof.
  intros Hk Hc -> HC1 HC2 Hn Hty Ht Hyk Hyc.
  set (T := Z.to_nat (t p)).
  assert (HT : t p = Z.of_nat T) by lia.
  destruct (lookup_lt_is_Some_2 (keys y) (T - 1)) as [mid Hmid]; [lia|].
  assert (Hmid' : vget (keys y) (t p - 1) = Some mid).
  { unfold vget. rewrite decide_True by lia.
    by replace (Z.to_nat (t p - 1)) with (T - 1)%nat by lia. }
  exists mid. split; [done|].
  unfold split_child, split_left, split_right. clear Hmid HT. clearbody T.
  rewrite Hc, vget_middle by lia. simpl.
  unfold new_node. rewrite decide_True by lia. simpl. rewrite Hty.
  rewrite (split_keys_of_z y (t p)) by done. simpl.
  rewrite Hk.
  destruct (is_leaf y);
    [|rewrite (split_children_of_z y (t p)) by lia]; simpl;
    rewrite vset_middle by lia; simpl;
    rewrite (cons_middle _ C1 (C2 ++ e :: E)), (assoc_L (++) C1);
    rewrite (for_down_shift_at C2 (C1 ++ [Some _]) E e)
      by (rewrite ?length_app; simpl; lia);
    simpl;
    rewrite vset_middle by (rewrite ?length_app; simpl; lia); simpl;
    rewrite (for_down_shift_at K2 K1 J d) by lia; simpl;
    rewrite Hmid'; simpl;
    rewrite vset_middle by lia; simpl;
    rewrite <-(assoc_L (++) C1); simpl; repeat f_equal; lia.
Qed.
End split.

(** * In-order sequences *)

Section interleave.
Implicit Types (c : list Z) (cs A B : list (list Z)) (ks K : list Z).

Lemma iright_cons k ks cs :
  cs ≠ [] → iright (k :: ks) cs = k :: interleave cs ks.
Proof. by destruct cs. Qed.

Lemma interleave_split A c B K1 K2 :
  length A = length K1 →
  interleave (A ++ c :: B) (K1 ++ K2) = ileft A K1 ++ c ++ iright K2 B.
Proof.
  revert K1. induction A as [|a A IH]; intros [|k K1] Hlen; try done.
  simpl in Hlen. rewrite <-!app_comm_cons.
  change (interleave (a :: ?l) ?ks) with (a ++ iright ks l).
  rewrite iright_cons by (by destruct A).
  rewrite IH by lia. cbn [ileft]. by rewrite <-(assoc_L (++)).
Qed.

Lemma ileft_snoc A c K1 k :
  length A = length K1 →
  ileft (A ++ [c]) (K1 ++ [k]) = ileft A K1 ++ c ++ [k].
Proof.
  revert K1. induction A as [|a A IH]; intros [|k' K1] Hlen; try done.
  simpl in *. rewrite IH by lia. by rewrite <-(assoc_L (++)).
Qed.

Lemma interleave_half A B K1 m K2 :
  length A = S (length K1) → B ≠ [] →
  interleave (A ++ B) (K1 ++ m :: K2)
  = interleave A K1 ++ m :: interleave B K2.
Proof.
  intros Hlen HB. destruct A as [|a A]; [done|]. simpl in *.
  rewrite <-(assoc_L (++)). f_equal.
  assert (length A = length K1) as Hlen' by lia. clear Hlen.
  revert K1 Hlen'. induction A as [|a' A IH]; intros [|k K1] Hlen; try done.
  - simpl. by destruct B.
  - simpl in *. rewrite <-(assoc_L (++)). do 2 f_equal. apply IH. lia.
Qed.

Lemma last_ileft A K1 :
  length A = length K1 → last (ileft A K1) = last K1.
Proof.
  intros Hlen.
  destruct K1 as [|k K1 _] using rev_ind.
  { by destruct A. }
  destruct A as [|a A _] using rev_ind.
  { rewrite length_app in Hlen. simpl in Hlen. lia. }
  rewrite !length_app in Hlen. simpl in Hlen.
  rewrite ileft_snoc by lia.
  by rewrite (assoc_L (++)), !last_snoc.
Qed.

Lemma ileft_nil_r A : ileft A [] = [].
Proof. by destruct A. Qed.

Lemma head_iright K2 B :
  length B = length K2 → head (iright K2 B) = head K2.
Proof. destruct K2, B; naive_solver. Qed.

End interleave.

(** * Well-formed nodes and their in-order sequence *)

Section invariants.
Import BTreeNode.

(** The minimum degree of the tree under consideration. *)
Variable tt : Z.

Lemma wf_length_children h x :
  wf tt h x → 1 ≤ tt → length (children x) = Z.to_nat (2 * tt).
Proof.
  destruct h as [|h]; [done|]. simpl. intros (_ & _ & Hn & Hc) Ht.
  destruct (is_leaf x).
  - destruct Hc as [_ ->]. by rewrite length_replicate.
  - destruct Hc as (cs & -> & Hlen & _).
    rewrite length_app, length_fmap, length_replicate. lia.
Qed.

Lemma depth_children (cs : list node) (m h : nat) :
  cs ≠ [] → Forall (λ c, depth c = h) cs →
  foldr (λ oc acc,
           match oc with
           | Some c => Nat.max (depth c) acc
           | None => acc
           end) O ((Some <$> cs) ++ replicate m None) = h.
Proof.
  intros Hne Hcs.
  assert (Hnone : foldr (λ (oc : option node) acc,
                   match oc with
                   | Some c => Nat.max (depth c) acc
                   | None => acc
                   end) O (replicate m None) = O).
  { induction m; by simpl. }
  rewrite foldr_app, Hnone.
  induction Hcs as [|c cs Hc Hcs IH]; [done|]. simpl.
  destruct cs as [|c' cs]; simpl in *; [lia|].
  rewrite IH by done. lia.
Qed.

Lemma wf_depth h x : wf tt h x → depth x = h.
Proof.
  revert x. induction h as [|h IH]; intros x; [done|].
  destruct x as [xt xl xn xk xc]. simpl. intros (_ & _ & Hn & Hc).
  f_equal. destruct xl.
  - destruct Hc as [-> ->]. by induction (Z.to_nat (2 * tt)).
  - destruct Hc as (cs & -> & Hlen & Hcs). apply depth_children.
    + intros ->. simpl in Hlen. lia.
    + eapply Forall_impl; [done|]. intros c [Hc _]. by apply IH.
Qed.

Lemma elems_leaf h x :
  is_leaf x = true → elems (S h) x = lkeys x.
Proof. simpl. by intros ->. Qed.

Lemma elems_internal h x (cs : list node) m :
  is_leaf x = false →
  children x = (Some <$> cs) ++ replicate m None →
  length cs = Z.to_nat (n x + 1) →
  elems (S h) x = interleave (elems h <$> cs) (lkeys x).
Proof.
  simpl. intros -> -> Hlen.
  rewrite take_app_length' by by rewrite length_fmap.
  by rewrite <-list_fmap_compose.
Qed.

Lemma elems_internal_mk h a nn ks (cs : list node) m :
  length cs = Z.to_nat (nn + 1) →
  elems (S h) (mk a false nn ks ((Some <$> cs) ++ replicate m None))
  = interleave (elems h <$> cs) (take (Z.to_nat nn) ks).
Proof. intros Hlen. by erewrite elems_internal. Qed.

End invariants.

(** * Insertion preserves well-formedness and inserts in order *)

Lemma inserted_at_ctx k pre c c' post :
  inserted_at k c c' →
  (∀ x, last pre = Some x → x ≤ k) →
  (∀ y, head post = Some y → k ≤ y) →
  inserted_at k (pre ++ c ++ post) (pre ++ c' ++ post).
Proof.
  intros (L & R & -> & -> & HL & HR) Hpre Hpost.
  exists (pre ++ L), (R ++ post). split_and!.
  - by rewrite <-!(assoc_L (++)).
  - by rewrite <-!(assoc_L (++)).
  - intros x. rewrite last_app. destruct (last L) eqn:E; naive_solver.
  - intros y. rewrite head_app. destruct (head R) eqn:E; naive_solver.
Qed.

Lemma sorted_le_last L x :
  StronglySorted Z.le L → last L = Some x → Forall (λ y, y ≤ x) L.
Proof.
  intros HL [L' ->]%last_Some. apply StronglySorted_app in HL as (H & _ & _).
  apply Forall_app. split.
  - apply Forall_forall. intros y Hy. apply H; [done|]. by apply list_elem_of_singleton.
  - by apply Forall_singleton.
Qed.

Lemma sorted_ge_head R y :
  StronglySorted Z.le R → head R = Some y → Forall (λ z, y ≤ z) R.
Proof.
  intros HR [R' ->]%head_Some. apply StronglySorted_cons in HR as [H _].
  apply Forall_cons. split; [lia|done].
Qed.

Lemma sorted_ge_head_bound k R :
  StronglySorted Z.le R → (∀ y, head R = Some y → k ≤ y) →
  Forall (λ z, k ≤ z) R.
Proof.
  intros HsR HR. destruct R as [|y R]; [done|].
  specialize (HR y eq_refl).
  eapply Forall_impl; [by apply (sorted_ge_head _ y)|]. simpl. lia.
Qed.

Lemma inserted_at_sorted k l l' :
  StronglySorted Z.le l → inserted_at k l l' → StronglySorted Z.le l'.
Proof.
  intros Hl (L & R & -> & -> & HL & HR).
  apply StronglySorted_app in Hl as (HLR & HsL & HsR).
  pose proof (sorted_ge_head_bound k R HsR HR) as HRk.
  apply StronglySorted_app. split_and!; [|done|by apply StronglySorted_cons].
  intros x1 x2 Hx1 [->|Hx2]%elem_of_cons; [|by apply HLR].
  destruct (last L) as [z|] eqn:Hz.
  - pose proof (sorted_le_last L z HsL Hz) as Hle.
    rewrite Forall_forall in Hle. specialize (Hle x1 Hx1).
    specialize (HL z eq_refl). lia.
  - apply last_None in Hz as ->. by apply elem_of_nil in Hx1.
Qed.

Lemma insert_sorted_front k R :
  Forall (λ z, k ≤ z) R → insert_sorted k R = k :: R.
Proof.
  induction R as [|y R IH]; [done|]. intros [Hy HR]%Forall_cons. simpl.
  destruct (decide (k < y)); [done|].
  rewrite IH by done. assert (y = k) as -> by lia. done.
Qed.

Lemma inserted_at_insert_sorted k l l' :
  StronglySorted Z.le l → inserted_at k l l' → l' = insert_sorted k l.
Proof.
  intros Hl (L & R & -> & -> & HL & HR).
  induction L as [|x L IH].
  - simpl in *. symmetry. apply insert_sorted_front.
    by apply sorted_ge_head_bound.
  - simpl in *. apply StronglySorted_cons in Hl as [Hx Hl].
    assert (x ≤ k) as Hxk.
    { rewrite last_cons in HL. destruct (last L) as [z|] eqn:Hz.
      - specialize (HL z eq_refl). apply last_Some_elem_of in Hz.
        rewrite Forall_forall in Hx.
        specialize (Hx z ltac:(apply elem_of_app; by left)). lia.
      - by apply HL. }
    rewrite decide_False by lia. f_equal. apply IH; [done|].
    intros z Hz. apply HL. by rewrite last_cons, Hz.
Qed.

Lemma not_elem_of_above k R :
  StronglySorted Z.le R → (∀ y, head R = Some y → k < y) → k ∉ R.
Proof.
  intros HsR HR Hin. destruct R as [|y R]; [by apply elem_of_nil in Hin|].
  specialize (HR y eq_refl).
  pose proof (sorted_ge_head (y :: R) y HsR eq_refl) as Hge.
  rewrite Forall_forall in Hge. specialize (Hge k Hin). lia.
Qed.

Lemma not_elem_of_below k L :
  StronglySorted Z.le L → (∀ x, last L = Some x → x < k) → k ∉ L.
Proof.
  intros HsL HL Hin. destruct (last L) as [z|] eqn:Hz.
  - specialize (HL z eq_refl).
    pose proof (sorted_le_last L z HsL Hz) as Hle.
    rewrite Forall_forall in Hle. specialize (Hle k Hin). lia.
  - apply last_None in Hz as ->. by apply elem_of_nil in Hin.
Qed.

(** A sorted sequence without repetition is strictly sorted. *)
Lemma sorted_nodup_lt (l : list Z) :
  StronglySorted Z.le l → NoDup l → StronglySorted Z.lt l.
Proof.
  induction 1 as [|x l Hs IH Hx]; intros Hnd; [constructor|].
  apply NoDup_cons in Hnd as [Hnotin Hnd]. constructor; [by apply IH|].
  rewrite Forall_forall in Hx |- *. intros y Hy.
  specialize (Hx y Hy). assert (x ≠ y) by (by intros ->). lia.
Qed.

Lemma inserted_at_right k ey mid ez ez' :
  mid ≤ k → inserted_at k ez ez' →
  inserted_at k (ey ++ mid :: ez) (ey ++ mid :: ez').
Proof.
  intros Hmid (L & R & -> & -> & HL & HR).
  exists (ey ++ mid :: L), R. split_and!.
  - by rewrite <-(assoc_L (++)).
  - by rewrite <-(assoc_L (++)).
  - intros x. rewrite last_app, last_cons.
    destruct (last L) eqn:E; naive_solver.
  - done.
Qed.

Lemma inserted_at_left k ey ey' mid ez :
  k ≤ mid → inserted_at k ey ey' →
  inserted_at k (ey ++ mid :: ez) (ey' ++ mid :: ez).
Proof.
  intros Hmid Hat.
  apply (inserted_at_ctx k [] ey ey' (mid :: ez)); [done|done|].
  simpl. intros y [= <-]. lia.
Qed.

Lemma interleave_inserted k A c c' B K1 K2 :
  length A = length K1 → length B = length K2 →
  inserted_at k c c' →
  (∀ x, last K1 = Some x → x ≤ k) →
  (∀ y, head K2 = Some y → k ≤ y) →
  inserted_at k (interleave (A ++ c :: B) (K1 ++ K2))
                (interleave (A ++ c' :: B) (K1 ++ K2)).
Proof.
  intros HA HB Hc HK1 HK2. rewrite !interleave_split by done.
  apply inserted_at_ctx; [done| |].
  - by rewrite last_ileft.
  - by rewrite head_iright.
Qed.

Lemma interleave_promote A ey mid ez B K1 K2 :
  length A = length K1 →
  interleave (A ++ (ey ++ mid :: ez) :: B) (K1 ++ K2)
  = interleave (A ++ ey :: ez :: B) (K1 ++ mid :: K2).
Proof.
  intros HA. rewrite !interleave_split by done. simpl.
  by rewrite <-!(assoc_L (++)).
Qed.

Lemma children_assoc (A B : list BTreeNode.node) c (E : list (option BTreeNode.node)) :
  (Some <$> A) ++ Some c :: (Some <$> B) ++ E = (Some <$> (A ++ c :: B)) ++ E.
Proof. by rewrite fmap_app, fmap_cons, <-(assoc_L (++)). Qed.

Lemma take_keys (L R J : list Z) (mid : Z) (m : nat) :
  m = (length L + 1 + length R)%nat →
  take m (L ++ mid :: R ++ J) = L ++ mid :: R.
Proof.
  intros ->. rewrite (app_comm_cons R J mid), (assoc_L (++) L).
  apply take_app_length'. rewrite length_app. simpl. lia.
Qed.

Lemma children_snoc (A : list BTreeNode.node) c (E : list (option BTreeNode.node)) :
  (Some <$> A) ++ Some c :: E = (Some <$> (A ++ [c])) ++ E.
Proof. by rewrite fmap_app, <-(assoc_L (++)). Qed.

Lemma vget_child (A : list BTreeNode.node) c rest j :
  j = Z.of_nat (length A) →
  BTreeNode.deref (vget ((Some <$> A) ++ Some c :: rest) j) = Some c.
Proof. intros ->. by rewrite vget_middle by by rewrite length_fmap. Qed.

Lemma vset_child (A : list BTreeNode.node) c c' rest j :
  j = Z.of_nat (length A) →
  vset ((Some <$> A) ++ Some c :: rest) j (Some c')
  = Some ((Some <$> A) ++ Some c' :: rest).
Proof. intros ->. by rewrite vset_middle by by rewrite length_fmap. Qed.

Section insertion.
Import BTreeNode.
Variable tt : Z.
Hypothesis Htt : 1 ≤ tt.

Local Abbreviation T := (Z.to_nat tt).

Lemma split_children (cs : list node) (m : nat) :
  length cs = (2 * T)%nat → m = O →
  take T ((Some <$> cs) ++ replicate m None) ++ replicate T None
    ++ drop (2 * T) ((Some <$> cs) ++ replicate m None)
  = (Some <$> take T cs) ++ replicate T None ∧
  take T (drop T ((Some <$> cs) ++ replicate m None)) ++ replicate T None
  = (Some <$> drop T cs) ++ replicate T None.
Proof.
  intros Hlen ->. simpl. rewrite !(right_id_L [] (++)).
  rewrite (drop_ge _ (2 * T)) by (rewrite length_fmap; lia).
  rewrite (take_ge (drop _ _))
    by (rewrite length_drop, length_fmap; lia).
  by rewrite (right_id_L [] (++)), fmap_take, fmap_drop.
Qed.

Lemma split_left_wf h y :
  wf tt h y → n y = 2 * tt - 1 → wf tt h (split_left tt y).
Proof using Htt.
  destruct h as [|h]; [done|]. destruct y as [yt yl yn yk yc].
  cbn [wf split_left t is_leaf n keys children].
  intros (-> & Hk & Hn & Hc) ->. split_and!; try done; try lia.
  destruct yl; [done|]. destruct Hc as (cs & -> & Hlen & Hcs).
  exists (take T cs). split_and!.
  - replace (Z.to_nat (2 * tt - (tt - 1) - 1)) with T by lia.
    apply split_children; lia.
  - rewrite length_take. lia.
  - by apply Forall_take.
Qed.

Lemma split_right_wf h y :
  wf tt h y → n y = 2 * tt - 1 → wf tt h (split_right tt y).
Proof using Htt.
  destruct h as [|h]; [done|]. destruct y as [yt yl yn yk yc].
  cbn [wf split_right t is_leaf n keys children].
  intros (-> & Hk & Hn & Hc) ->. split_and!; try done; try lia.
  { rewrite length_app, length_take, length_drop, length_replicate. lia. }
  destruct yl.
  { destruct Hc as [-> _]. split; [done|]. f_equal. lia. }
  destruct Hc as (cs & -> & Hlen & Hcs).
  exists (drop T cs). split_and!.
  - replace (Z.to_nat (2 * tt - (tt - 1) - 1)) with T by lia.
    apply split_children; lia.
  - rewrite length_drop. lia.
  - by apply Forall_drop.
Qed.

Lemma split_elems h y :
  wf tt h y → n y = 2 * tt - 1 →
  ∃ mid, vget (keys y) (tt - 1) = Some mid ∧
    elems h y
    = elems h (split_left tt y) ++ mid :: elems h (split_right tt y).
Proof using Htt.
  destruct h as [|h]; [done|]. destruct y as [yt yl yn yk yc].
  cbn [wf t is_leaf n keys children].
  intros (-> & Hk & Hn & Hc) ->.
  destruct (lookup_lt_is_Some_2 yk (T - 1)) as [mid Hmid]; [lia|].
  exists mid. split.
  { unfold vget. rewrite decide_True by lia.
    by replace (Z.to_nat (tt - 1)) with (T - 1)%nat by lia. }
  assert (Hyk : yk = take (T - 1) yk ++ mid :: drop T yk).
  { rewrite <-(take_drop_middle yk (T - 1) mid) at 1 by done.
    do 3 f_equal. lia. }
  assert (Hkl : take (Z.to_nat (tt - 1)) yk = take (T - 1) yk).
  { f_equal. lia. }
  assert (Hkr : take (Z.to_nat (tt - 1))
                  (take (T - 1) (drop T yk) ++ replicate T 0)
                = drop T yk).
  { replace (Z.to_nat (tt - 1)) with (T - 1)%nat by lia.
    rewrite take_app_length' by (rewrite length_take, length_drop; lia).
    apply take_ge. rewrite length_drop. lia. }
  assert (Hky : take (Z.to_nat (2 * tt - 1)) yk = yk).
  { apply take_ge. lia. }
  destruct yl.
  - rewrite !elems_leaf by done.
    unfold lkeys, split_left, split_right. cbn [n keys].
    by rewrite Hkl, Hkr, Hky.
  - destruct Hc as (cs & -> & Hlen & Hcs).
    destruct (split_children cs (Z.to_nat (2 * tt - (2 * tt - 1) - 1)))
      as [Hcl Hcr]; [lia|lia|].
    unfold split_left, split_right. cbn [is_leaf children n keys t].
    rewrite Hcl, Hcr.
    rewrite !elems_internal_mk by (rewrite ?length_take, ?length_drop; lia).
    rewrite Hkl, Hkr, Hky.
    rewrite Hyk at 1. rewrite <-(take_drop T cs) at 1.
    rewrite fmap_app, !fmap_take, !fmap_drop. apply interleave_half.
    + rewrite !length_take, length_fmap. lia.
    + intros Hnil%(f_equal length).
      rewrite length_drop, length_fmap in Hnil. simpl in Hnil. lia.
Qed.

Lemma wf_n_bounds h x : wf tt h x → 0 ≤ n x ≤ 2 * tt - 1.
Proof. destruct h; [done|]. simpl. tauto. Qed.

Lemma wf_internal_mk h nn ks (cs : list node) E :
  length ks = Z.to_nat (2 * tt - 1) →
  0 ≤ nn ≤ 2 * tt - 1 →
  length cs = Z.to_nat (nn + 1) →
  E = replicate (Z.to_nat (2 * tt - nn - 1)) None →
  Forall (λ c, wf tt h c ∧ tt - 1 ≤ n c) cs →
  wf tt (S h) (mk tt false nn ks ((Some <$> cs) ++ E)).
Proof.
  intros ? ? ? -> ?. cbn [wf t is_leaf n keys children].
  split_and!; [done|done|lia|lia|]. by exists cs.
Qed.

Lemma insert_non_full_leaf x k fuel :
  wf tt 1 x → n x < 2 * tt - 1 →
  ∃ x', insert_non_full (S fuel) x k = Some x' ∧
        wf tt 1 x' ∧ n x ≤ n x' ∧
        inserted_at k (elems 1 x) (elems 1 x').
Proof using Htt.
  destruct x as [xt xl xn xk xc].
  cbn [wf t is_leaf n keys children].
  intros (-> & Hk & Hn & Hc) Hfull.
  destruct xl; cycle 1.
  { destruct Hc as (cs & _ & Hlen & Hcs).
    destruct cs; [simpl in Hlen; lia|].
    by apply Forall_cons in Hcs as [[[] _] _]. }
  destruct Hc as [_ ->].
  cbn [insert_non_full is_leaf n keys children t].
  destruct (drop (Z.to_nat xn) xk) as [|d Q] eqn:HQ.
  { apply (f_equal length) in HQ. rewrite length_drop in HQ.
    simpl in HQ. lia. }
  assert (HP : xk = take (Z.to_nat xn) xk ++ d :: Q).
  { by rewrite <-HQ, take_drop. }
  destruct (shift_keys_spec k (take (Z.to_nat xn) xk) d Q (Z.to_nat xn)
              (xn - 1)) as (L & R & d' & HLR & HR & HL & Hshift).
  { rewrite length_take. lia. }
  { rewrite length_take. lia. }
  rewrite <-HP in Hshift. rewrite Hshift. simpl.
  rewrite vset_middle by lia. simpl.
  eexists. split; [done|].
  assert (Hlen : (length L + length R)%nat = Z.to_nat xn).
  { apply (f_equal length) in HLR.
    rewrite length_app, length_take in HLR. lia. }
  refine (conj _ (conj _ _)).
  - simpl. split_and!; try done; try lia.
    apply (f_equal length) in HP. rewrite HLR in HP.
    rewrite !length_app in HP. simpl in HP. rewrite ?length_app in HP.
    rewrite !length_app. simpl. rewrite ?length_app. lia.
  - simpl. lia.
  - exists L, R. split_and!.
    + rewrite ?elems_leaf by done. by unfold lkeys.
    + rewrite ?elems_leaf by done. unfold lkeys. cbn [n keys].
      rewrite (app_comm_cons R Q k), (assoc_L (++) L).
      apply take_app_length'. rewrite length_app. simpl. lia.
    + done.
    + intros y Hy. apply head_Some in Hy as [R' ->].
      apply Forall_cons in HR as [? _]. lia.
Qed.

(** The last three statements of the internal branch: descend into
    the child at slot [j] and store the updated child back. *)
Lemma descend_spec h fuel k nn ks (A B : list node) c E j :
  insert_ok tt h → (h ≤ fuel)%nat →
  wf tt h c → tt - 1 ≤ n c → n c < 2 * tt - 1 →
  j = Z.of_nat (length A) →
  let ch := (Some <$> A) ++ Some c :: (Some <$> B) ++ E in
  ∃ c',
    (c0 ← deref (vget ch j);
     c1 ← insert_non_full fuel c0 k;
     ch' ← vset ch j (Some c1);
     Some (set_children (mk tt false nn ks ch) ch'))
    = Some (mk tt false nn ks
              ((Some <$> A) ++ Some c' :: (Some <$> B) ++ E)) ∧
    wf tt h c' ∧ tt - 1 ≤ n c' ∧
    inserted_at k (elems h c) (elems h c').
Proof.
  intros IH Hfuel Hc Hmin Hfull -> ch.
  destruct (IH c k fuel Hc Hfull Hfuel) as (c' & Hins & Hc' & Hn & Hat).
  exists c'. split_and!; [|done|lia|done].
  unfold ch. rewrite vget_child by done. simpl. rewrite Hins. simpl.
  by rewrite vset_child by done.
Qed.

Lemma insert_non_full_internal_aux h x k fuel (Q : node → Prop) :
  insert_ok tt h → (h ≤ fuel)%nat →
  wf tt (S h) x → is_leaf x = false → n x < 2 * tt - 1 →
  (∀ x', wf tt (S h) x' → n x ≤ n x' →
         inserted_at k (elems (S h) x) (elems (S h) x') → Q x') →
  ∃ x', insert_non_full (S fuel) x k = Some x' ∧ Q x'.
Proof using Htt.
  intros IH Hfuel Hwf Hleaf Hfull HQ.
  destruct x as [xt xl xn xk xc].
  cbn [wf t is_leaf n keys children] in Hwf, Hleaf, Hfull.
  cbn [n] in HQ. subst xl.
  destruct Hwf as (-> & Hk & Hn & cs & -> & Hlen & Hcs).
  rewrite (elems_internal_mk h tt xn xk cs) in HQ by done.
  cbn [insert_non_full is_leaf n keys children t].
  destruct (find_child_spec k (take (Z.to_nat xn) xk)
              (drop (Z.to_nat xn) xk) (Z.to_nat xn) (xn - 1))
    as (L & R & HLR & HR & HL & Hfind).
  { rewrite length_take. lia. }
  { rewrite length_take. lia. }
  rewrite take_drop in Hfind. rewrite Hfind. simpl.
  assert (HlenLR : (length L + length R)%nat = Z.to_nat xn).
  { apply (f_equal length) in HLR.
    rewrite length_app, length_take in HLR. lia. }
  assert (HR' : ∀ y, head R = Some y → k ≤ y).
  { intros y Hy. apply head_Some in Hy as [R' ->].
    apply Forall_cons in HR as [? _]. lia. }
  destruct (lookup_lt_is_Some_2 cs (length L)) as [c Hcl]; [lia|].
  pose proof (take_drop_middle cs (length L) c Hcl) as Hsplit.
  assert (HlenA : length (take (length L) cs) = length L).
  { rewrite length_take. lia. }
  assert (HlenB : length (drop (S (length L)) cs) = length R).
  { rewrite length_drop. lia. }
  revert Hsplit HlenA HlenB.
  generalize (take (length L) cs) (drop (S (length L)) cs).
  intros A B <- HlenA HlenB. clear Hcl.
  apply Forall_app in Hcs as [HA [[Hc Hcmin] HB]%Forall_cons].
  replace (Z.of_nat (length L) - 1 + 1) with (Z.of_nat (length L)) by lia.
  rewrite HLR in HQ.
  rewrite fmap_app, fmap_cons, <-(assoc_L (++)). simpl.
  rewrite vget_child by lia. simpl.
  destruct (decide (n c = 2 * tt - 1)) as [Hcfull|Hcfull].
  - destruct (drop (Z.to_nat xn) xk) as [|d J] eqn:HdJ.
    { apply (f_equal length) in HdJ. rewrite length_drop in HdJ.
      simpl in HdJ. lia. }
    assert (Hxk : xk = L ++ R ++ d :: J).
    { by rewrite <-(take_drop (Z.to_nat xn) xk), HLR, HdJ, <-(assoc_L (++)). }
    assert (HlenJ : (length L + length R + 1 + length J)%nat
                    = Z.to_nat (2 * tt - 1)).
    { rewrite <-Hk, Hxk, !length_app. simpl. lia. }
    clear HdJ HLR Hk Hfind. subst xk.
    set (E := replicate (Z.to_nat (2 * tt - xn - 2)) (@None node)).
    replace (Z.to_nat (2 * tt - xn - 1)) with (S (Z.to_nat (2 * tt - xn - 2)))
      by lia.
    cbn [replicate]. fold E.
    destruct (split_child_shape
                (mk tt false xn (L ++ R ++ d :: J)
                   ((Some <$> A) ++ Some c :: (Some <$> B) ++ None :: E))
                (Z.of_nat (length L)) c L R d J
                (Some <$> A) (Some <$> B) None E)
      as (mid & Hmid & Hshape); cbn [t n keys children is_leaf];
      try (rewrite ?length_fmap; done || lia).
    { destruct h; [done|]. by destruct Hc as (? & _). }
    { destruct h; [done|]. destruct Hc as (_ & ? & _). lia. }
    { rewrite (wf_length_children tt h c) by (done || lia). lia. }
    cbn [t n keys children is_leaf] in Hshape, Hmid.
    rewrite Hshape. simpl.
    rewrite vget_middle by done. simpl.
    pose proof (split_left_wf h c Hc Hcfull) as Hyl.
    pose proof (split_right_wf h c Hc Hcfull) as Hzr.
    destruct (split_elems h c Hc Hcfull) as (mid' & Hmid' & Helems).
    assert (mid' = mid) as -> by congruence.
    set (yl := split_left tt c) in *. set (zr := split_right tt c) in *.
    assert (Hnyl : n yl = tt - 1) by done.
    assert (Hnzr : n zr = tt - 1) by done.
    clearbody yl zr.
    assert (HE : E = replicate (Z.to_nat (2 * tt - (xn + 1) - 1)) None).
    { unfold E. f_equal. lia. }
    clearbody E.
    rewrite fmap_app, fmap_cons, Helems, interleave_promote in HQ
      by by rewrite length_fmap.
    destruct (decide (mid < k)) as [Hlt|Hge]; simpl.
    + rewrite (children_snoc A yl).
      destruct (descend_spec h fuel k (xn + 1) (L ++ mid :: R ++ J)
                  (A ++ [yl]) B zr E (Z.of_nat (length L) + 1))
        as (c' & Hdesc & Hc' & Hcmin' & Hat);
        [done|done|done|lia|lia|rewrite length_app; simpl; lia|].
      eexists. split; [exact Hdesc|]. apply HQ.
      * rewrite children_assoc.
        apply wf_internal_mk; try done.
        -- rewrite !length_app. simpl. rewrite length_app. lia.
        -- lia.
        -- rewrite !length_app in *. simpl in *. lia.
        -- rewrite !Forall_app, !Forall_cons, Forall_nil.
           split_and!; try done. lia.
      * simpl. lia.
      * rewrite children_assoc, HE.
        rewrite elems_internal_mk
          by (rewrite !length_app in *; simpl in *; lia).
        rewrite take_keys by lia.
        rewrite !fmap_app, !fmap_cons, fmap_nil.
        rewrite (cons_middle mid L R), (assoc_L (++) L).
        rewrite (cons_middle (elems h yl) (elems h <$> A)),
          (assoc_L (++) (elems h <$> A)).
        apply interleave_inserted; try done.
        -- rewrite !length_app, !length_fmap. simpl. lia.
        -- by rewrite length_fmap.
        -- intros x. rewrite last_snoc. intros [= <-]. lia.
    + replace (Z.of_nat (length L) - 1 + 1) with (Z.of_nat (length L))
        by lia.
      destruct (descend_spec h fuel k (xn + 1) (L ++ mid :: R ++ J)
                  A (zr :: B) yl E (Z.of_nat (length L)))
        as (c' & Hdesc & Hc' & Hcmin' & Hat);
        [done|done|done|lia|lia|lia|].
      eexists. split; [exact Hdesc|]. apply HQ.
      * rewrite children_assoc.
        apply wf_internal_mk; try done.
        -- rewrite !length_app. simpl. rewrite length_app. lia.
        -- lia.
        -- rewrite !length_app in *. simpl in *. lia.
        -- rewrite !Forall_app, !Forall_cons.
           split_and!; try done. lia.
      * simpl. lia.
      * rewrite children_assoc, HE.
        rewrite elems_internal_mk
          by (rewrite !length_app in *; simpl in *; lia).
        rewrite take_keys by lia.
        rewrite !fmap_app, !fmap_cons.
        apply interleave_inserted; try done.
        -- by rewrite !length_fmap.
        -- simpl. rewrite !length_fmap. lia.
        -- simpl. intros y [= <-]. lia.
  - simpl.
    replace (Z.of_nat (length L) - 1 + 1) with (Z.of_nat (length L)) by lia.
    destruct (descend_spec h fuel k xn xk A B c
                (replicate (Z.to_nat (2 * tt - xn - 1)) None)
                (Z.of_nat (length L)))
      as (c' & Hdesc & Hc' & Hcmin' & Hat);
      [done|done|done|done|apply wf_n_bounds in Hc; lia|lia|].
    eexists. split; [exact Hdesc|]. apply HQ.
    + rewrite children_assoc.
      apply wf_internal_mk; try done.
      * rewrite length_app in *. simpl in *. lia.
      * apply Forall_app. split; [done|]. by apply Forall_cons.
    + simpl. lia.
    + rewrite children_assoc.
      rewrite elems_internal_mk
        by (rewrite length_app in *; simpl in *; lia).
      rewrite HLR, !fmap_app, !fmap_cons.
      apply interleave_inserted; try done.
      * by rewrite !length_fmap.
      * by rewrite !length_fmap.
Qed.

Theorem insert_non_full_ok h : insert_ok tt h.
Proof using Htt.
  induction h as [|h IH]; intros x k fuel Hwf Hfull Hfuel; [done|].
  destruct fuel as [|fuel]; [lia|].
  destruct (is_leaf x) eqn:Hleaf.
  - assert (h = O) as ->.
    { simpl in Hwf. rewrite Hleaf in Hwf. by destruct Hwf as (_&_&_&?&_). }
    by apply insert_non_full_leaf.
  - apply (insert_non_full_internal_aux h x k fuel
             (λ x', wf tt (S h) x' ∧ n x ≤ n x' ∧
                    inserted_at k (elems (S h) x) (elems (S h) x')));
      auto with lia.
Qed.

End insertion.

(** * The tree as a whole *)

Section tree.
Import BTreeNode.
Variable tt : Z.
Hypothesis Htt : 1 ≤ tt.

Lemma insert_empty k :
  ∃ r, BTree.insert (BTree.new tt) k = Some (BTree.mk (Some r) tt) ∧
       wf tt 1 r ∧ elems 1 r = [k].
Proof using Htt.
  unfold BTree.insert, BTree.new, new_node. simpl.
  rewrite decide_True by lia. simpl.
  replace (Z.to_nat (2 * tt - 1)) with (S (Z.to_nat (2 * tt - 2))) by lia.
  cbn [replicate]. rewrite vset_head.
  simpl. eexists. split; [done|]. split.
  - simpl. rewrite length_replicate. split_and!; try done; lia.
  - done.
Qed.

Lemma insert_populated r h k :
  wf tt h r →
  ∃ r' h',
    BTree.insert (BTree.mk (Some r) tt) k = Some (BTree.mk (Some r') tt) ∧
    wf tt h' r' ∧
    inserted_at k (elems h r) (elems h' r') ∧
    (n r ≠ 2 * tt - 1 → h' = h) ∧
    (n r = 2 * tt - 1 → h' = S h).
Proof using Htt.
  intros Hwf. pose proof (wf_depth tt h r Hwf) as Hdepth.
  unfold BTree.insert. cbn [BTree.root BTree.t].
  destruct (decide (n r = 2 * tt - 1)) as [Hfull|Hfull].
  - unfold new_node. rewrite decide_True by lia. simpl.
    replace (Z.to_nat (2 * tt)) with (S (S (Z.to_nat (2 * tt - 2)))) by lia.
    replace (Z.to_nat (2 * tt - 1)) with (S (Z.to_nat (2 * tt - 2))) by lia.
    cbn [replicate]. rewrite vset_head. simpl.
    set (J := replicate (Z.to_nat (2 * tt - 2)) 0).
    set (E := replicate (Z.to_nat (2 * tt - 2)) (@None node)).
    destruct (split_child_shape
                (mk tt false 0 (0 :: J) (Some r :: None :: E))
                0 r [] [] 0 J [] [] None E)
      as (mid & Hmid & Hshape); cbn [t n keys children is_leaf];
      try (done || lia).
    { destruct h; [done|]. by destruct Hwf as (? & _). }
    { destruct h; [done|]. destruct Hwf as (_ & ? & _). lia. }
    { rewrite (wf_length_children tt h r) by (done || lia). lia. }
    cbn [t n keys children is_leaf] in Hshape, Hmid.
    unfold set_children. cbn [t n keys children is_leaf].
    rewrite Hshape. simpl.
    pose proof (split_left_wf tt Htt h r Hwf Hfull) as Hyl.
    pose proof (split_right_wf tt Htt h r Hwf Hfull) as Hzr.
    destruct (split_elems tt Htt h r Hwf Hfull) as (mid' & Hmid' & Helems).
    assert (mid' = mid) as -> by congruence.
    set (yl := split_left tt r) in *. set (zr := split_right tt r) in *.
    assert (Hnyl : n yl = tt - 1) by done.
    assert (Hnzr : n zr = tt - 1) by done.
    clearbody yl zr.
    assert (HE : E = replicate (Z.to_nat (2 * tt - (0 + 1) - 1)) None).
    { unfold E. f_equal. lia. }
    assert (HJ : length (mid :: J) = Z.to_nat (2 * tt - 1)).
    { unfold J. simpl. rewrite length_replicate. lia. }
    clearbody E J.
    rewrite Helems.
    destruct (decide (mid < k)) as [Hlt|Hge].
    + destruct (insert_non_full_ok tt Htt h zr k (depth zr))
        as (zr' & Hins & Hzr' & Hnzr' & Hat); [done|lia|by rewrite (wf_depth tt h)|].
      change (Some yl :: Some zr :: E)
        with ((Some <$> [yl]) ++ Some zr :: E).
      rewrite vget_child by done. simpl. rewrite Hins. simpl.
      change (Some yl :: Some zr :: E)
        with ((Some <$> [yl]) ++ Some zr :: E).
      rewrite vset_child by done. simpl.
      eexists _, (S h). split; [done|]. split_and!; [| |lia|done].
      * apply (wf_internal_mk tt h (0 + 1) (mid :: J) [yl; zr'] E);
          try done; try lia.
        repeat constructor; try done; lia.
      * rewrite HE.
        change (Some yl :: Some zr' :: ?e) with ((Some <$> [yl; zr']) ++ e).
        rewrite (elems_internal_mk h tt (0 + 1) (mid :: J) [yl; zr']) by done.
        simpl. rewrite (right_id_L [] (++)).
        apply inserted_at_right; [lia|done].
    + destruct (insert_non_full_ok tt Htt h yl k (depth yl))
        as (yl' & Hins & Hyl' & Hnyl' & Hat); [done|lia|by rewrite (wf_depth tt h)|].
      rewrite vget_head. cbn [deref mbind option_bind id].
      rewrite Hins. cbn [mbind option_bind].
      rewrite vset_head. cbn [mbind option_bind].
      eexists _, (S h). split; [done|]. split_and!; [| |lia|done].
      * apply (wf_internal_mk tt h (0 + 1) (mid :: J) [yl'; zr] E);
          try done; try lia.
        repeat constructor; try done; lia.
      * rewrite HE.
        change (Some yl' :: Some zr :: ?e) with ((Some <$> [yl'; zr]) ++ e).
        rewrite (elems_internal_mk h tt (0 + 1) (mid :: J) [yl'; zr]) by done.
        simpl. rewrite (right_id_L [] (++)).
        apply inserted_at_left; [lia|done].
  - destruct (insert_non_full_ok tt Htt h r k (depth r))
      as (r' & Hins & Hr' & Hnr' & Hat).
    { done. } { apply (wf_n_bounds tt) in Hwf. lia. } { lia. }
    rewrite Hins. simpl. exists r', h. by split_and!.
Qed.

(** The loop of [traverse] over a leaf emits the keys in turn. *)
Lemma traverse_loop_leaf (ks : list Z) P : ∀ D Q acc j,
  ks = D ++ P ++ Q → j = Z.of_nat (length D) →
  for_up (length P) j
    (λ i out, out ← Some out; ki ← vget ks i; Some (out ++ [ki])) acc
  = Some (acc ++ P).
Proof.
  induction P as [|p P IH]; intros D Q acc j Hks ->.
  - simpl. by rewrite (right_id_L [] (++)).
  - assert (Hget : vget ks (Z.of_nat (length D)) = Some p).
    { rewrite Hks. by apply vget_middle. }
    cbn [length for_up]. cbn [mbind option_bind].
    rewrite Hget. cbn [mbind option_bind].
    rewrite (IH (D ++ [p]) Q).
    + by rewrite <-(assoc_L (++)).
    + by rewrite Hks, <-(assoc_L (++)).
    + rewrite length_app. simpl. lia.
Qed.

(** The loop of [traverse] over an internal node emits each child's
    keys followed by the key to its right. *)
Lemma traverse_loop (f : node → option (list Z)) (g : node → list Z)
    (ks : list Z) (cs : list (option node)) P :
  ∀ (A D' : list node) D Q rest acc j,
    Forall (λ c, f c = Some (g c)) A →
    ks = D ++ P ++ Q →
    cs = (Some <$> D') ++ (Some <$> A) ++ rest →
    length D' = length D → length A = length P →
    j = Z.of_nat (length D) →
    for_up (length P) j
      (λ i out,
         out ← (c ← vget cs i;
                match c with
                | None => Some out
                | Some c => o ← f c; Some (out ++ o)
                end);
         ki ← vget ks i; Some (out ++ [ki])) acc
    = Some (acc ++ ileft (g <$> A) P).
Proof.
  induction P as [|p P IH]; intros A D' D Q rest acc j HA Hks Hcs HD' HAP ->.
  - simpl. rewrite ileft_nil_r. by rewrite (right_id_L [] (++)).
  - destruct A as [|a A]; [done|].
    apply Forall_cons in HA as [Ha HA].
    assert (Hget : vget ks (Z.of_nat (length D)) = Some p).
    { rewrite Hks. by apply vget_middle. }
    assert (Hgetc : vget cs (Z.of_nat (length D)) = Some (Some a)).
    { rewrite Hcs. apply vget_middle. rewrite length_fmap. lia. }
    cbn [length for_up]. cbn [mbind option_bind].
    rewrite Hgetc. cbn [mbind option_bind].
    rewrite Ha. cbn [mbind option_bind].
    rewrite Hget. cbn [mbind option_bind].
    rewrite (IH A (D' ++ [a]) (D ++ [p]) Q rest); try done.
    + cbn [fmap list_fmap ileft]. by rewrite <-!(assoc_L (++)).
    + by rewrite Hks, <-(assoc_L (++)).
    + by rewrite Hcs, fmap_app, <-(assoc_L (++)).
    + rewrite !length_app. simpl. lia.
    + simpl in HAP. lia.
    + rewrite length_app. simpl. lia.
Qed.

Lemma traverse_elems h : ∀ x fuel,
  wf tt h x → (h ≤ fuel)%nat → traverse fuel x = Some (elems h x).
Proof using Htt.
  induction h as [|h IH]; intros x fuel Hwf Hfuel; [done|].
  destruct fuel as [|fuel]; [lia|].
  destruct x as [xt xl xn xk xc].
  cbn [wf t is_leaf n keys children] in Hwf.
  destruct Hwf as (-> & Hk & Hn & Hc).
  cbn [traverse is_leaf n keys children t].
  destruct xl.
  - rewrite elems_leaf by done. unfold lkeys. cbn [n keys].
    replace (Z.to_nat xn) with (length (take (Z.to_nat xn) xk)) at 1
      by (rewrite length_take; lia).
    rewrite (traverse_loop_leaf xk (take (Z.to_nat xn) xk) []
               (drop (Z.to_nat xn) xk) [] 0); try done.
    by rewrite take_drop.
  - destruct Hc as (cs & -> & Hlen & Hcs).
    rewrite elems_internal_mk by done.
    destruct cs as [|cl A _] using rev_ind; [simpl in Hlen; lia|].
    rewrite length_app in Hlen. simpl in Hlen.
    apply Forall_app in Hcs as [HA [[Hcl _] _]%Forall_cons].
    set (P := take (Z.to_nat xn) xk).
    assert (HP : length P = length A).
    { unfold P. rewrite length_take. lia. }
    replace (Z.to_nat xn) with (length P) at 1 by lia.
    rewrite fmap_app, <-(assoc_L (++)). cbn [fmap list_fmap app].
    rewrite (traverse_loop (traverse fuel) (elems h) xk _ P A [] []
               (drop (Z.to_nat xn) xk)
               (Some cl :: replicate (Z.to_nat (2 * tt - xn - 1)) None)
               [] 0); try done.
    + cbn [mbind option_bind app].
      rewrite vget_middle by (rewrite length_fmap; lia).
      cbn [mbind option_bind]. rewrite (IH cl fuel) by (done || lia).
      cbn [mbind option_bind]. f_equal.
      rewrite <-(right_id_L [] (++) P) at 2.
      rewrite fmap_app. cbn [fmap list_fmap].
      rewrite interleave_split by (rewrite length_fmap; lia).
      cbn [iright]. by rewrite (right_id_L [] (++)).
    + eapply Forall_impl; [exact HA|]. intros c [Hc _]. apply IH; [done|lia].
    + unfold P. by rewrite take_drop.
Qed.

Lemma tree_traverse_elems' tr :
  tree_wf tt tr → BTree.traverse tr = Some (tree_elems tr).
Proof using Htt.
  unfold tree_wf, BTree.traverse, tree_elems. intros [_ Hr].
  destruct (BTree.root tr) as [r|]; [|done]. destruct Hr as [h Hr].
  rewrite (wf_depth tt h r Hr). by apply traverse_elems.
Qed.

(** One call of [insert] on a well-formed tree. *)
Theorem insert_spec' tr k :
  tree_wf tt tr →
  ∃ tr',
    BTree.insert tr k = Some tr' ∧ tree_wf tt tr' ∧
    inserted_at k (tree_elems tr) (tree_elems tr') ∧
    (BTree.root tr = None → BTree.height tr' = 1%nat) ∧
    (∀ r, BTree.root tr = Some r → n r ≠ 2 * tt - 1 →
          BTree.height tr' = BTree.height tr) ∧
    (∀ r, BTree.root tr = Some r → n r = 2 * tt - 1 →
          BTree.height tr' = S (BTree.height tr)).
Proof using Htt.
  destruct tr as [[r|] t']; unfold tree_wf, tree_elems, BTree.height;
    cbn [BTree.root BTree.t]; intros [-> Hr].
  - destruct Hr as [h Hr].
    destruct (insert_populated r h k Hr)
      as (r' & h' & Hins & Hr' & Hat & Hnf & Hf).
    exists (BTree.mk (Some r') tt). cbn [BTree.root BTree.t].
    rewrite (wf_depth tt h r Hr), (wf_depth tt h' r' Hr').
    split_and!; try done.
    + by exists h'.
    + intros ? [= <-] ?. auto.
    + intros ? [= <-] ?. auto.
  - destruct (insert_empty k) as (r & Hins & Hr1 & Hel).
    exists (BTree.mk (Some r) tt). cbn [BTree.root BTree.t].
    rewrite (wf_depth tt 1 r Hr1), Hel.
    split_and!; try done.
    + by exists 1%nat.
    + by exists [], [].
Qed.

Lemma tree_inv_new : tree_inv tt (BTree.new tt).
Proof. split; [done|]. constructor. Qed.

Lemma insert_inv' tr k :
  tree_inv tt tr →
  ∃ tr', BTree.insert tr k = Some tr' ∧ tree_inv tt tr' ∧
         tree_elems tr' = insert_sorted k (tree_elems tr).
Proof using Htt.
  intros [Hwf Hs].
  destruct (insert_spec' tr k Hwf) as (tr' & Hins & Hwf' & Hat & _).
  exists tr'. split_and!; try done.
  - split; [done|]. by eapply inserted_at_sorted.
  - by apply inserted_at_insert_sorted.
Qed.

Lemma insert_sorted_perm k l : insert_sorted k l ≡ₚ k :: l.
Proof.
  induction l as [|x l IH]; [done|]. simpl.
  destruct (decide (k < x)); [done|]. by rewrite IH, Permutation_swap.
Qed.

Lemma insert_all_inv ks : ∀ tr,
  tree_inv tt tr →
  ∃ tr', BTree.insert_all tr ks = Some tr' ∧ tree_inv tt tr' ∧
         tree_elems tr' ≡ₚ ks ++ tree_elems tr.
Proof using Htt.
  induction ks as [|k ks IH]; intros tr Hinv.
  - by exists tr.
  - destruct (insert_inv' tr k Hinv) as (tr1 & Hins & Hinv1 & Hel1).
    destruct (IH tr1 Hinv1) as (tr' & Hall & Hinv' & Hel').
    exists tr'. simpl. rewrite Hins. simpl. split_and!; try done.
    rewrite Hel', Hel1, insert_sorted_perm.
    by rewrite Permutation_middle.
Qed.

(** Every sequence of [insert] calls on the empty tree succeeds. *)
Lemma reachable_inv' ks :
  ∃ tr, BTree.insert_all (BTree.new tt) ks = Some tr ∧ tree_inv tt tr ∧
        tree_elems tr ≡ₚ ks.
Proof using Htt.
  destruct (insert_all_inv ks (BTree.new tt) tree_inv_new)
    as (tr & Hall & Hinv & Hel).
  exists tr. split_and!; try done.
  rewrite Hel. unfold tree_elems. simpl. by rewrite (right_id_L [] (++)).
Qed.

(** [search] finds every key of the in-order sequence. *)
Lemma search_found h : ∀ x k fuel,
  wf tt h x → StronglySorted Z.le (elems h x) → k ∈ elems h x →
  (h ≤ fuel)%nat →
  ∃ nd, search fuel x k = Some (Some nd).
Proof using Htt.
  induction h as [|h IH]; intros x k fuel Hwf Hs Hin Hfuel; [done|].
  destruct fuel as [|fuel]; [lia|].
  destruct x as [xt xl xn xk xc].
  cbn [wf t is_leaf n keys children] in Hwf.
  destruct Hwf as (-> & Hk & Hn & Hc).
  cbn [search is_leaf n keys children t].
  destruct (scan_spec k (drop (Z.to_nat xn) xk) (take (Z.to_nat xn) xk)
              [] (Z.to_nat xn) 0 xn)
    as (L & R & HLR & HL & HR & Hscan);
    [rewrite length_take; lia|done|done|rewrite length_take; simpl; lia|].
  cbn [app] in HLR, Hscan. rewrite take_drop in Hscan.
  rewrite Hscan. cbn [mbind option_bind].
  assert (HlenLR : (length L + length R)%nat = Z.to_nat xn).
  { apply (f_equal length) in HLR.
    rewrite length_app, length_take in HLR. lia. }
  assert (Hxk : xk = L ++ R ++ drop (Z.to_nat xn) xk).
  { by rewrite (assoc_L (++)), <-HLR, take_drop. }
  assert (HL' : ∀ x, last L = Some x → x < k).
  { intros x Hx%last_Some_elem_of. rewrite Forall_forall in HL. auto. }
  assert (Hcase : (∃ R', R = k :: R') ∨ (∀ y, head R = Some y → k < y)).
  { destruct R as [|y R']; [by right|].
    destruct (decide (y = k)) as [->|]; [left; eauto|right].
    intros ? [= <-]. specialize (HR y eq_refl). lia. }
  destruct Hcase as [[R' ->]|Hgt].
  { (* [keys[i] == k] *)
    assert (Hget : vget xk (Z.of_nat (length L)) = Some k).
    { rewrite Hxk. by apply vget_middle. }
    simpl in HlenLR.
    destruct (decide (Z.of_nat (length L) < xn)); [|lia].
    rewrite Hget. cbn [mbind option_bind].
    rewrite bool_decide_eq_true_2 by done. cbn [mbind option_bind].
    by eexists. }
  assert (Hfound : (if decide (Z.of_nat (length L) < xn) then
                      ki ← vget xk (Z.of_nat (length L));
                      Some (bool_decide (ki = k))
                    else Some false) = Some false).
  { destruct R as [|y R'].
    - simpl in HlenLR. by rewrite decide_False by lia.
    - assert (Hget : vget xk (Z.of_nat (length L)) = Some y).
      { rewrite Hxk. by apply vget_middle. }
      simpl in HlenLR. rewrite decide_True by lia.
      rewrite Hget. cbn [mbind option_bind].
      specialize (Hgt y eq_refl).
      by rewrite bool_decide_eq_false_2 by lia. }
  rewrite Hfound. cbn [mbind option_bind]. clear Hfound.
  destruct xl.
  - (* a leaf holds [k] among its keys *)
    exfalso. rewrite elems_leaf in Hin, Hs by done.
    unfold lkeys in Hin, Hs. cbn [n keys] in Hin, Hs.
    rewrite HLR in Hin, Hs.
    apply StronglySorted_app in Hs as (_ & HsL & HsR).
    apply elem_of_app in Hin as [Hin|Hin].
    + by apply (not_elem_of_below k L).
    + by apply (not_elem_of_above k R).
  - destruct Hc as (cs & -> & Hlen & Hcs).
    rewrite elems_internal_mk in Hin, Hs by done. rewrite HLR in Hin, Hs.
    destruct (lookup_lt_is_Some_2 cs (length L)) as [c Hcl]; [lia|].
    pose proof (take_drop_middle cs (length L) c Hcl) as Hsplit.
    assert (HlenA : length (take (length L) cs) = length L).
    { rewrite length_take. lia. }
    assert (HlenB : length (drop (S (length L)) cs) = length R).
    { rewrite length_drop. lia. }
    revert Hsplit HlenA HlenB.
    generalize (take (length L) cs) (drop (S (length L)) cs).
    intros A B <- HlenA HlenB. clear Hcl.
    apply Forall_app in Hcs as [_ [[Hc _] _]%Forall_cons].
    rewrite fmap_app, fmap_cons in Hin, Hs.
    rewrite interleave_split in Hin, Hs by by rewrite length_fmap.
    rewrite <-children_assoc.
    assert (Hgetc : vget ((Some <$> A) ++ Some c :: (Some <$> B)
                            ++ replicate (Z.to_nat (2 * tt - xn - 1)) None)
                      (Z.of_nat (length L)) = Some (Some c)).
    { apply vget_middle. rewrite length_fmap. lia. }
    rewrite Hgetc. cbn [mbind option_bind].
    apply StronglySorted_app in Hs as (_ & HsA & Hs).
    apply StronglySorted_app in Hs as (_ & Hsc & HsB).
    apply IH; [done|done| |lia].
    apply elem_of_app in Hin as [Hin|Hin].
    { exfalso. apply (not_elem_of_below k _ HsA); [|done].
      by rewrite last_ileft by by rewrite length_fmap. }
    apply elem_of_app in Hin as [Hin|Hin]; [done|].
    exfalso. apply (not_elem_of_above k _ HsB); [|done].
    by rewrite head_iright by by rewrite length_fmap.
Qed.

(** [search] returns on every well-formed subtree. *)
Lemma search_total h : ∀ x k fuel,
  wf tt h x → (h ≤ fuel)%nat → ∃ p, search fuel x k = Some p.
Proof using Htt.
  induction h as [|h IH]; intros x k fuel Hwf Hfuel; [done|].
  destruct fuel as [|fuel]; [lia|].
  destruct x as [xt xl xn xk xc].
  cbn [wf t is_leaf n keys children] in Hwf.
  destruct Hwf as (-> & Hk & Hn & Hc).
  cbn [search is_leaf n keys children t].
  destruct (scan_spec k (drop (Z.to_nat xn) xk) (take (Z.to_nat xn) xk)
              [] (Z.to_nat xn) 0 xn)
    as (L & R & HLR & HL & HR & Hscan);
    [rewrite length_take; lia|done|done|rewrite length_take; simpl; lia|].
  cbn [app] in HLR, Hscan. rewrite take_drop in Hscan.
  rewrite Hscan. cbn [mbind option_bind].
  assert (HlenLR : (length L + length R)%nat = Z.to_nat xn).
  { apply (f_equal length) in HLR.
    rewrite length_app, length_take in HLR. lia. }
  assert (Hfound : ∃ b, (if decide (Z.of_nat (length L) < xn) then
                           ki ← vget xk (Z.of_nat (length L));
                           Some (bool_decide (ki = k))
                         else Some false) = Some b).
  { destruct (decide (Z.of_nat (length L) < xn)); [|by eexists].
    destruct (lookup_lt_is_Some_2 xk (length L)) as [ki Hki]; [lia|].
    rewrite vget_lookup, Hki. by eexists. }
  destruct Hfound as [b ->]. cbn [mbind option_bind].
  destruct b; [by eexists|]. destruct xl; [by eexists|].
  destruct Hc as (cs & -> & Hlen & Hcs).
  destruct (lookup_lt_is_Some_2 cs (length L)) as [c Hcl]; [lia|].
  rewrite vget_lookup, lookup_app_l by (rewrite length_fmap; lia).
  rewrite list_lookup_fmap, Hcl. cbn [fmap option_fmap option_map mbind option_bind].
  rewrite Forall_lookup in Hcs. destruct (Hcs _ _ Hcl) as [Hwc _].
  apply IH; [done|lia].
Qed.

Lemma tree_search_total' tr k :
  tree_wf tt tr → ∃ b, BTree.search tr k = Some b.
Proof using Htt.
  unfold tree_wf, BTree.search. intros [_ Hr].
  destruct (BTree.root tr) as [r|]; [|by eexists].
  destruct Hr as [h Hr]. rewrite (wf_depth tt h r Hr).
  destruct (search_total h r k h Hr) as [p ->]; [lia|]. by eexists.
Qed.

Lemma tree_search_found' tr k :
  tree_inv tt tr → k ∈ tree_elems tr → BTree.search tr k = Some true.
Proof using Htt.
  unfold tree_inv, tree_wf, tree_elems, BTree.search.
  intros [[_ Hr] Hs] Hin.
  destruct (BTree.root tr) as [r|]; [|by apply elem_of_nil in Hin].
  destruct Hr as [h Hr]. rewrite (wf_depth tt h r Hr) in *.
  destruct (search_found h r k h Hr Hs Hin) as [nd ->]; [lia|]. done.
Qed.

End tree.

(** * The nodes of a tree *)

Section nodes.
Import BTreeNode.
Variable tt : Z.
Hypothesis Htt : 1 ≤ tt.

(** A child slot cuts the in-order sequence of its node in three. *)
Lemma wf_child_at h x i c :
  wf tt (S h) x → child_at x i c →
  ∃ (A B : list node) K1 K2,
    wf tt h c ∧ tt - 1 ≤ n c ∧
    lkeys x = K1 ++ K2 ∧ Z.of_nat (length K1) = i ∧
    elems (S h) x
    = ileft (elems h <$> A) K1 ++ elems h c
        ++ iright K2 (elems h <$> B) ∧
    length A = length K1 ∧ length B = length K2.
Proof using Htt.
  destruct x as [xt xl xn xk xc]. unfold child_at.
  cbn [wf t is_leaf n keys children].
  intros (-> & Hk & Hn & Hc) (-> & Hi & Hget).
  destruct Hc as (cs & -> & Hlen & Hcs).
  apply vget_Some in Hget as [_ Hget].
  rewrite lookup_app_l in Hget by (rewrite length_fmap; lia).
  rewrite list_lookup_fmap in Hget.
  destruct (cs !! Z.to_nat i) as [c'|] eqn:Hci; [|done].
  simpl in Hget. injection Hget as ->.
  pose proof (take_drop_middle cs _ c Hci) as Hsplit.
  exists (take (Z.to_nat i) cs), (drop (S (Z.to_nat i)) cs),
    (take (Z.to_nat i) (take (Z.to_nat xn) xk)),
    (drop (Z.to_nat i) (take (Z.to_nat xn) xk)).
  rewrite Forall_lookup in Hcs. destruct (Hcs _ _ Hci) as [Hwc Hnc].
  split_and!; try done.
  - unfold lkeys. cbn [n keys]. by rewrite take_drop.
  - rewrite !length_take. lia.
  - rewrite (elems_internal_mk h tt xn xk cs) by done.
    rewrite <-Hsplit at 1.
    rewrite <-(take_drop (Z.to_nat i) (take (Z.to_nat xn) xk)) at 1.
    rewrite fmap_app, fmap_cons. apply interleave_split.
    rewrite length_fmap, !length_take. lia.
  - rewrite !length_take. lia.
  - rewrite !length_drop, length_take. lia.
Qed.

Lemma elem_of_interleave_key (cs : list (list Z)) ks k :
  length cs = S (length ks) → k ∈ ks → k ∈ interleave cs ks.
Proof.
  intros Hlen (K1 & K2 & ->)%list_elem_of_split.
  rewrite length_app in Hlen. simpl in Hlen.
  rewrite <-(take_drop (length K1) cs).
  destruct (drop (length K1) cs) as [|c B] eqn:HB.
  { apply (f_equal length) in HB. rewrite length_drop in HB.
    simpl in HB. lia. }
  rewrite interleave_split by (rewrite length_take; lia).
  destruct B as [|b B].
  { apply (f_equal length) in HB. rewrite length_drop in HB.
    simpl in HB. lia. }
  simpl. rewrite !elem_of_app, elem_of_cons. auto.
Qed.

Lemma holds_key_lkeys y k : holds_key y k → k ∈ lkeys y.
Proof.
  intros (j & Hj & [_ Hget]%vget_Some). unfold lkeys.
  apply list_elem_of_lookup. exists (Z.to_nat j).
  rewrite lookup_take_lt by lia. done.
Qed.

Lemma holds_key_elems h y k : wf tt h y → holds_key y k → k ∈ elems h y.
Proof using Htt.
  destruct h as [|h]; [done|]. intros Hwf Hk%holds_key_lkeys.
  destruct y as [yt yl yn yk yc].
  cbn [wf t is_leaf n keys children] in Hwf.
  destruct Hwf as (-> & Hlk & Hn & Hc). destruct yl.
  - by rewrite elems_leaf.
  - destruct Hc as (cs & -> & Hlen & Hcs).
    rewrite elems_internal_mk by done.
    apply elem_of_interleave_key; [|done].
    rewrite length_fmap, length_take. lia.
Qed.

Lemma subtree_key_elems c k :
  subtree_key c k → ∀ h, wf tt h c → k ∈ elems h c.
Proof using Htt.
  intros (y & Hpath & Hk). induction Hpath as [x|x c y Hc _ IH]; intros h Hwf.
  - by apply holds_key_elems.
  - destruct h as [|h]; [done|]. destruct Hc as [i Hc].
    destruct (wf_child_at h x i c Hwf Hc)
      as (A & B & K1 & K2 & Hwc & _ & _ & _ & -> & _).
    rewrite !elem_of_app. right. left. by apply IH.
Qed.

(** Well-formedness and sortedness, for the order [R], reach every node of
    the tree. *)
Lemma wf_descendant' (R : relation Z) x y :
  rtc child x y → ∀ h,
  wf tt h x → StronglySorted R (elems h x) →
  ∃ h', wf tt h' y ∧ StronglySorted R (elems h' y).
Proof using Htt.
  induction 1 as [x|x c y Hc _ IH]; intros h Hwf Hs; [by exists h|].
  destruct h as [|h]; [done|]. destruct Hc as [i Hc].
  destruct (wf_child_at h x i c Hwf Hc)
    as (A & B & K1 & K2 & Hwc & _ & _ & _ & Hel & _).
  rewrite Hel in Hs.
  apply StronglySorted_app in Hs as (_ & _ & Hs).
  apply StronglySorted_app in Hs as (_ & Hs & _).
  by apply (IH h).
Qed.

Lemma wf_proper_descendant' x y :
  tc child x y → ∀ h, wf tt h x → ∃ h', wf tt h' y ∧ tt - 1 ≤ n y.
Proof using Htt.
  induction 1 as [x y Hc|x c y Hc _ IH]; intros h Hwf;
    (destruct h as [|h]; [done|]); destruct Hc as [i Hc];
    destruct (wf_child_at h x i _ Hwf Hc)
      as (A & B & K1 & K2 & Hwc & Hnc & _).
  - by exists h.
  - by apply (IH h).
Qed.

(** Each key of the subtree in child slot [i] lies between the keys
    [i - 1] and [i] of the node, in the order [R] in which the in-order
    sequence is sorted. *)
Lemma child_between' (R : relation Z) h x i c k' :
  wf tt h x → StronglySorted R (elems h x) →
  child_at x i c → subtree_key c k' →
  (∀ ki, i < n x → vget (keys x) i = Some ki → R k' ki) ∧
  (∀ kp, 0 < i → vget (keys x) (i - 1) = Some kp → R kp k').
Proof using Htt.
  intros Hwf Hs Hc Hk. destruct h as [|h]; [done|].
  destruct (wf_child_at h x i c Hwf Hc)
    as (A & B & K1 & K2 & Hwc & _ & HK & HlenK & Hel & HlenA & HlenB).
  pose proof (subtree_key_elems c k' Hk h Hwc) as Hin.
  rewrite Hel in Hs. unfold lkeys in HK.
  apply StronglySorted_app in Hs as (Hlow & _ & Hs).
  apply StronglySorted_app in Hs as (Hhigh & _ & _).
  split.
  - intros ki Hi [_ Hget]%vget_Some. apply Hhigh; [done|].
    assert (head K2 = Some ki) as HK2.
    { rewrite <-Hget, <-(lookup_take_lt (keys x) (Z.to_nat (n x))) by lia.
      rewrite HK, lookup_app_r by lia.
      replace (Z.to_nat i - length K1)%nat with O by lia.
      by destruct K2. }
    apply head_Some_elem_of.
    by rewrite head_iright by by rewrite length_fmap.
  - intros kp Hi [_ Hget]%vget_Some. apply Hlow; [|apply elem_of_app; by left].
    assert (last K1 = Some kp) as HK1.
    { rewrite <-Hget, <-(lookup_take_lt (keys x) (Z.to_nat (n x)))
        by (destruct Hc as (_ & ? & _); lia).
      rewrite HK, lookup_app_l by lia.
      rewrite last_lookup. f_equal. lia. }
    apply last_Some_elem_of.
    by rewrite last_ileft by by rewrite length_fmap.
Qed.

Lemma non_null_children (cs : list node) m :
  non_null ((Some <$> cs) ++ replicate m None) = length cs.
Proof.
  unfold non_null. rewrite omap_app.
  assert (omap id (replicate m (@None node)) = []) as ->.
  { induction m; by simpl. }
  rewrite (right_id_L [] (++)).
  induction cs as [|c cs IH]; [done|]. simpl. by f_equal.
Qed.

(** The children of an internal node are its first [n + 1] slots. *)
Lemma wf_fanout' h y :
  wf tt h y → is_leaf y = false →
  Z.of_nat (non_null (children y)) = n y + 1 ∧
  ∀ i, 0 ≤ i ≤ n y → ∃ c, vget (children y) i = Some (Some c).
Proof using Htt.
  destruct h as [|h]; [done|]. destruct y as [yt yl yn yk yc].
  cbn [wf t is_leaf n keys children].
  intros (-> & Hlk & Hn & Hc) ->. destruct Hc as (cs & -> & Hlen & Hcs).
  split.
  - rewrite non_null_children. lia.
  - intros i Hi. destruct (lookup_lt_is_Some_2 cs (Z.to_nat i)) as [c Hc]; [lia|].
    exists c. apply vget_Some. split; [lia|].
    rewrite lookup_app_l by (rewrite length_fmap; lia).
    by rewrite list_lookup_fmap, Hc.
Qed.

(** [search] only finds keys of the in-order sequence. *)
Lemma search_sound h : ∀ x k fuel nd,
  wf tt h x → (h ≤ fuel)%nat →
  search fuel x k = Some (Some nd) → k ∈ elems h x.
Proof using Htt.
  induction h as [|h IH]; intros x k fuel nd Hwf Hfuel Hsearch; [done|].
  destruct fuel as [|fuel]; [lia|].
  assert (Hkeys : holds_key x k → k ∈ elems (S h) x)
    by by apply holds_key_elems.
  assert (Hchild : ∀ i c, child_at x i c → wf tt h c ∧
                          ∀ k', k' ∈ elems h c → k' ∈ elems (S h) x).
  { intros i c Hc.
    destruct (wf_child_at h x i c Hwf Hc)
      as (A & B & K1 & K2 & Hwc & _ & _ & _ & -> & _).
    split; [done|]. intros k' Hk'. rewrite !elem_of_app. auto. }
  destruct x as [xt xl xn xk xc]. unfold holds_key, child_at in *.
  cbn [wf t is_leaf n keys children] in Hwf, Hkeys, Hchild.
  destruct Hwf as (-> & Hk & Hn & Hc).
  cbn [search is_leaf n keys children t] in Hsearch.
  destruct (scan_spec k (drop (Z.to_nat xn) xk) (take (Z.to_nat xn) xk)
              [] (Z.to_nat xn) 0 xn)
    as (L & R & HLR & HL & HR & Hscan);
    [rewrite length_take; lia|done|done|rewrite length_take; simpl; lia|].
  cbn [app] in HLR, Hscan. rewrite take_drop in Hscan.
  rewrite Hscan in Hsearch. cbn [mbind option_bind] in Hsearch.
  assert (HlenLR : (length L + length R)%nat = Z.to_nat xn).
  { apply (f_equal length) in HLR.
    rewrite length_app, length_take in HLR. lia. }
  destruct (decide (Z.of_nat (length L) < xn)) as [Hlt|Hge].
  - destruct (vget xk (Z.of_nat (length L))) as [ki|] eqn:Hki; [|done].
    cbn [mbind option_bind] in Hsearch.
    destruct (bool_decide_reflect (ki = k)) as [->|Hne].
    { apply Hkeys. exists (Z.of_nat (length L)). split; [lia|done]. }
    destruct xl; [done|].
    destruct (vget xc (Z.of_nat (length L))) as [[c|]|] eqn:Hci;
      cbn [mbind option_bind] in Hsearch; [|by case_decide|done].
    destruct (Hchild (Z.of_nat (length L)) c) as [Hwc Hsub];
      [split_and!; (done || lia)|].
    apply Hsub. by apply (IH c k fuel nd); [|lia|].
  - cbn [mbind option_bind] in Hsearch. destruct xl; [done|].
    destruct (vget xc (Z.of_nat (length L))) as [[c|]|] eqn:Hci;
      cbn [mbind option_bind] in Hsearch; [|by case_decide|done].
    destruct (Hchild (Z.of_nat (length L)) c) as [Hwc Hsub];
      [split_and!; (done || lia)|].
    apply Hsub. by apply (IH c k fuel nd); [|lia|].
Qed.

Lemma tree_search_sound' tr k :
  tree_wf tt tr → BTree.search tr k = Some true → k ∈ tree_elems tr.
Proof using Htt.
  unfold tree_wf, tree_elems, BTree.search. intros [_ Hr] Hsearch.
  destruct (BTree.root tr) as [r|]; [|done]. destruct Hr as [h Hr].
  rewrite (wf_depth tt h r Hr) in *.
  destruct (search h r k) as [[nd|]|] eqn:Hs; try done.
  by apply (search_sound h r k h nd).
Qed.

(** All leaves are on the last level. *)
Lemma wf_leaf_level' d : ∀ x y h,
  wf tt h x → nsteps child d x y → is_leaf y = true → h = S d.
Proof using Htt.
  induction d as [|d IH]; intros x y h Hwf Hpath Hleaf.
  - inversion Hpath; subst. destruct h as [|h]; [done|].
    cbn [wf] in Hwf. rewrite Hleaf in Hwf. by destruct Hwf as (_&_&_&->&_).
  - inversion Hpath as [|? ? c ? Hc Hrest]; subst.
    destruct h as [|h]; [done|]. destruct Hc as [i Hc].
    destruct (wf_child_at h x i c Hwf Hc) as (_ & _ & _ & _ & Hwc & _).
    f_equal. by apply (IH c y).
Qed.

End nodes.

(** * The degrees the class documents

    The constructor of [BTree] asks for a minimum degree of at least [2]
    and does not check it; the facts above hold from degree [1] on.  Here
    are the ones the properties of the specification use, at the
    documented degrees. *)

Section documented_degrees.
Variable tt : Z.
Hypothesis Htt : 2 ≤ tt.

Lemma degree_positive : 1 ≤ tt.
Proof using Htt. lia. Qed.

Definition tree_traverse_elems := tree_traverse_elems' tt degree_positive.
Definition insert_spec := insert_spec' tt degree_positive.
Definition insert_inv := insert_inv' tt degree_positive.
Definition reachable_inv := reachable_inv' tt degree_positive.
Definition tree_search_total := tree_search_total' tt degree_positive.
Definition tree_search_found := tree_search_found' tt degree_positive.
Definition wf_descendant := wf_descendant' tt degree_positive.
Definition wf_proper_descendant := wf_proper_descendant' tt degree_positive.
Definition child_between := child_between' tt degree_positive.
Definition wf_fanout := wf_fanout' tt degree_positive.
Definition tree_search_sound := tree_search_sound' tt degree_positive.
Definition wf_leaf_level := wf_leaf_level' tt degree_positive.

End documented_degrees.


(** * [search] leaves the tree as it is *)

Section search_frame.
Import BTreeNode.

(** Writing back what a slot holds changes nothing. *)
Lemma vset_same {A} (v : list A) (i : Z) (a : A) :
  vget v i = Some a → vset v i a = Some v.
Proof.
  intros [Hi Hget]%vget_Some. unfold vset.
  apply lookup_lt_Some in Hget as Hlt.
  rewrite decide_True by lia. by rewrite list_insert_id.
Qed.

(** On every node, well-formed or not, [search] hands back the subtree it
    was called on, with the pointer that [search] computes. *)
Lemma search_st_frame fuel : ∀ x k,
  search_st fuel x k = p ← search fuel x k; Some (x, p).
Proof.
  induction fuel as [|fuel IH]; intros x k; [done|].
  cbn [search_st search].
  destruct (scan (Z.to_nat (n x)) (keys x) (n x) 0 k) as [i|];
    cbn [mbind option_bind]; [|done].
  destruct (if decide (i < n x)
            then ki ← vget (keys x) i; Some (bool_decide (ki = k))
            else Some false) as [[|]|]; cbn [mbind option_bind]; try done.
  destruct (is_leaf x); [done|].
  destruct (vget (children x) i) as [[c|]|] eqn:Hc;
    cbn [mbind option_bind]; [|by case_decide|done].
  rewrite IH. destruct (search fuel c k) as [p|]; cbn [mbind option_bind]; [|done].
  rewrite (vset_same _ _ _ Hc). cbn [mbind option_bind]. by destruct x.
Qed.

Lemma tree_search_st_frame tr k :
  BTree.search_st tr k = b ← BTree.search tr k; Some (tr, b).
Proof.
  unfold BTree.search_st, BTree.search. destruct tr as [[r|] t']; [|done].
  cbn [BTree.root BTree.t]. rewrite search_st_frame.
  by destruct (search (depth r) r k).
Qed.

End search_frame.

(** * The public operations as a state machine *)

Lemma run_total tt tr o :
  2 ≤ tt → tree_inv tt tr →
  ∃ tr' rep, run tr o = Some (tr', rep) ∧ tree_inv tt tr' ∧
             (BTree.height tr ≤ BTree.height tr')%nat.
Proof.
  intros Htt Hinv. destruct o as [k|k|]; simpl.
  - destruct Hinv as [Hwf Hs].
    destruct (insert_spec tt Htt tr k Hwf)
      as (tr' & -> & Hwf' & Hat & Hempty & Hsame & Hgrow).
    exists tr', RUnit. split_and!; try done.
    + split; [done|]. by eapply inserted_at_sorted.
    + destruct (BTree.root tr) as [r|] eqn:Hr.
      * destruct (decide (BTreeNode.n r = 2 * tt - 1)).
        -- rewrite (Hgrow r) by done. lia.
        -- by rewrite (Hsame r).
      * rewrite Hempty by done. unfold BTree.height. rewrite Hr. lia.
  - rewrite tree_search_st_frame.
    destruct (tree_search_total tt Htt tr k) as [b ->]; [by destruct Hinv|].
    by exists tr, (RBool b).
  - destruct Hinv as [Hwf Hs].
    rewrite (tree_traverse_elems tt Htt tr Hwf). simpl.
    by exists tr, (RKeys (tree_elems tr)).
Qed.

Lemma search_decides (tt : Z) (ks : list Z) (k : Z) :
  2 ≤ tt →
  ∃ tr, BTree.insert_all (BTree.new tt) ks = Some tr ∧
        BTree.search tr k = Some (bool_decide (k ∈ ks)).
Proof.
  intros Htt. destruct (reachable_inv tt Htt ks) as (tr & Hall & Hinv & Hel).
  exists tr. split; [done|]. case_bool_decide as Hk.
  - apply (tree_search_found tt Htt); [done|]. by rewrite Hel.
  - destruct (tree_search_total tt Htt tr k (proj1 Hinv)) as [[|] Hb]; [|done].
    apply (tree_search_sound tt Htt) in Hb; [|by destruct Hinv].
    by rewrite Hel in Hb.
Qed.

(** * Properties of the specification

    The degree is an [int] in the program, and the constructor of a node
    computes [2 * t] in [int]: the properties of the trees built from
    [BTree(tt)] are stated for the degrees at which that product does not
    overflow, [2 * tt <= INT_MAX = 2147483647]. *)

(** C1 (round trip).  In a tree of minimum degree [tt >= 2], with [2 * tt]
    an [int], whatever the sequence [ks] of inserted keys, every [insert]
    returns and [search] answers [true] for every key of [ks], duplicates
    included. *)
Theorem C1_insert_then_search (tt : Z) (ks : list Z) :
  2 ≤ tt → 2 * tt ≤ 2147483647 →
  ∃ tr, BTree.insert_all (BTree.new tt) ks = Some tr ∧
        ∀ k, k ∈ ks → BTree.search tr k = Some true.
Proof.
  intros Htt _. destruct (reachable_inv tt Htt ks) as (tr & Hall & Hinv & Hel).
  exists tr. split; [done|]. intros k Hk.
  apply (tree_search_found tt Htt); [done|]. by rewrite Hel.
Qed.

Lemma C1_insert_then_search_witness :
  2 ≤ 2 ∧ 2 * 2 ≤ 2147483647 ∧
  ∃ tr, BTree.insert_all (BTree.new 2) [5; 1; 5; 3; 2; 4] = Some tr ∧
        ∀ k, k ∈ [5; 1; 5; 3; 2; 4] → BTree.search tr k = Some true.
Proof.
  split; [lia|]. split; [lia|].
  apply (C1_insert_then_search 2 [5; 1; 5; 3; 2; 4]); lia.
Defined.

(** C2 (sortedness).  For every tree built from the empty tree by [insert]
    calls (minimum degree [tt >= 2], with [2 * tt] an [int]), [traverse]
    returns and the sequence of keys it emits is non-decreasing. *)
Theorem C2_traverse_sorted (tt : Z) (ks : list Z) :
  2 ≤ tt → 2 * tt ≤ 2147483647 →
  ∃ tr l, BTree.insert_all (BTree.new tt) ks = Some tr ∧
          BTree.traverse tr = Some l ∧ Sorted Z.le l.
Proof.
  intros Htt _.
  destruct (reachable_inv tt Htt ks) as (tr & Hall & [Hwf Hs] & Hel).
  exists tr, (tree_elems tr). split_and!; [done| |].
  - by apply (tree_traverse_elems tt Htt).
  - by apply StronglySorted_Sorted.
Qed.

Lemma C2_traverse_sorted_witness :
  2 ≤ 3 ∧ 2 * 3 ≤ 2147483647 ∧
  ∃ tr l, BTree.insert_all (BTree.new 3) [10; 20; 5; 6; 12; 30; 7; 17] = Some tr ∧
          BTree.traverse tr = Some l ∧ Sorted Z.le l.
Proof.
  split; [lia|]. split; [lia|].
  apply (C2_traverse_sorted 3 [10; 20; 5; 6; 12; 30; 7; 17]); lia.
Defined.

(** C3 (separation, as amended).  For every tree built by [insert] calls
    (minimum degree [tt >= 2], with [2 * tt] an [int]) and every internal
    node of it, each key of the subtree rooted at [children[i]] is less
    than or equal to [keys[i]] and greater than or equal to [keys[i - 1]];
    if no key was inserted twice, it is strictly less than [keys[i]] and
    strictly greater than [keys[i - 1]]. *)
Theorem C3_children_between (tt : Z) (ks : list Z) :
  2 ≤ tt → 2 * tt ≤ 2147483647 →
  ∃ tr, BTree.insert_all (BTree.new tt) ks = Some tr ∧
        separates Z.le tr ∧
        (NoDup ks → separates Z.lt tr).
Proof.
  intros Htt _.
  destruct (reachable_inv tt Htt ks) as (tr & Hall & [[_ Hr] Hs] & Hel).
  assert (Hsep : ∀ R : relation Z,
            StronglySorted R (tree_elems tr) → separates R tr).
  { intros R HsR x i c k' (r & Hroot & Hpath) Hc Hk.
    unfold tree_elems in HsR. rewrite Hroot in Hr, HsR. destruct Hr as [h Hr].
    rewrite (wf_depth tt h r Hr) in HsR.
    destruct (wf_descendant tt Htt R r x Hpath h Hr HsR) as (h' & Hx & Hsx).
    by apply (child_between tt Htt R h' x i c k'). }
  exists tr. split; [done|]. split; [by apply Hsep|].
  intros Hnd. apply Hsep, sorted_nodup_lt; [done|]. by rewrite Hel.
Qed.

Lemma C3_children_between_witness :
  2 ≤ 2 ∧ 2 * 2 ≤ 2147483647 ∧
  ∃ tr, BTree.insert_all (BTree.new 2) [4; 1; 3; 2; 6; 5] = Some tr ∧
        separates Z.le tr ∧
        (NoDup [4; 1; 3; 2; 6; 5] → separates Z.lt tr).
Proof.
  split; [lia|]. split; [lia|].
  apply (C3_children_between 2 [4; 1; 3; 2; 6; 5]); lia.
Defined.

(** C3, as stated for every sequence of [insert] calls, fails when a key
    is inserted more than once: after [insert] of 1, 1, 1, 1 with minimum
    degree 2 the root holds the key 1, its first child holds 1 (not
    strictly less than [keys[0]]) and its second child holds 1 (not
    strictly greater). *)
Lemma C3_strict_counterexample :
  ∃ tr r c0 c1,
    BTree.insert_all (BTree.new 2) [1; 1; 1; 1] = Some tr ∧
    BTree.root tr = Some r ∧
    vget (BTreeNode.keys r) 0 = Some 1 ∧
    child_at r 0 c0 ∧ holds_key c0 1 ∧
    child_at r 1 c1 ∧ holds_key c1 1 ∧
    ¬ separates Z.lt tr.
Proof.
  eexists _, _, _, _. split; [vm_compute; reflexivity|].
  split; [reflexivity|]. split; [reflexivity|].
  split; [split_and!; [reflexivity|simpl; lia..|reflexivity]|].
  split; [exists 0; split; [simpl; lia|reflexivity]|].
  split; [split_and!; [reflexivity|simpl; lia..|reflexivity]|].
  split; [exists 0; split; [simpl; lia|reflexivity]|].
  intros Hsep.
  match type of Hsep with
  | separates _ (BTree.mk (Some ?r) _) =>
      destruct (Hsep r 0
                  (BTreeNode.mk 2 true 2 [1; 1; 1] [None; None; None; None]) 1)
        as [Hup _]
  end.
  - eexists. split; [done|]. apply rtc_refl.
  - split_and!; [done|simpl; lia..|]. reflexivity.
  - eexists. split; [apply rtc_refl|]. exists 0. split; [simpl; lia|done].
  - specialize (Hup 1). simpl in Hup. specialize (Hup ltac:(lia) eq_refl). lia.
Qed.

(** C4 (fanout bounds).  For every tree built by [insert] calls (minimum
    degree [tt >= 2], with [2 * tt] an [int]): the root holds between [0]
    and [2 * tt - 1] keys,
    every other node between [tt - 1] and [2 * tt - 1], and an internal
    node with [n] keys has exactly [n + 1] non-null child slots, its slots
    [0 .. n]. *)
Theorem C4_fanout_bounds (tt : Z) (ks : list Z) :
  2 ≤ tt → 2 * tt ≤ 2147483647 →
  ∃ tr, BTree.insert_all (BTree.new tt) ks = Some tr ∧ fanout tt tr.
Proof.
  intros Htt _.
  destruct (reachable_inv tt Htt ks) as (tr & Hall & [[_ Hr] Hs] & _).
  exists tr. split; [done|]. intros r Hroot.
  unfold tree_elems in Hs. rewrite Hroot in Hr, Hs. destruct Hr as [h Hr].
  rewrite (wf_depth tt h r Hr) in Hs. split_and!.
  - by apply (wf_n_bounds tt h).
  - by apply (wf_n_bounds tt h).
  - intros y Hy.
    destruct (wf_proper_descendant tt Htt r y Hy h Hr) as (h' & Hwy & Hmin).
    apply (wf_n_bounds tt) in Hwy. lia.
  - intros y Hy Hleaf.
    destruct (wf_descendant tt Htt Z.le r y Hy h Hr Hs) as (h' & Hwy & _).
    by apply (wf_fanout tt Htt h').
Qed.

Lemma C4_fanout_bounds_witness :
  2 ≤ 2 ∧ 2 * 2 ≤ 2147483647 ∧
  ∃ tr, BTree.insert_all (BTree.new 2) [10; 20; 5; 30; 15; 25; 3; 7] = Some tr ∧
        fanout 2 tr.
Proof.
  split; [lia|]. split; [lia|].
  apply (C4_fanout_bounds 2 [10; 20; 5; 30; 15; 25; 3; 7]); lia.
Defined.

(** C5 (split, as amended).  Let [p] be a node that is not full
    ([p.n < 2 * t - 1]), of the vector sizes the constructor gives, and [y]
    its child in slot [i], [0 <= i <= p.n], of the same degree and sizes and
    with [2 * t - 1] keys.  Then [p.split_child(i, y)] returns; afterwards
    slot [i] holds [y] with exactly its former lowest [t - 1] keys, slot
    [i + 1] holds the new node [z] with exactly the former keys
    [t .. 2 * t - 2] of [y], the former middle key of [y] is [p.keys[i]],
    and [p.n] has grown by one. *)
Theorem C5_split_child (p y : BTreeNode.node) (i : Z) :
  1 ≤ BTreeNode.t p →
  length (BTreeNode.keys p) = Z.to_nat (2 * BTreeNode.t p - 1) →
  length (BTreeNode.children p) = Z.to_nat (2 * BTreeNode.t p) →
  0 ≤ i ≤ BTreeNode.n p →
  BTreeNode.n p < 2 * BTreeNode.t p - 1 →
  vget (BTreeNode.children p) i = Some (Some y) →
  BTreeNode.t y = BTreeNode.t p →
  length (BTreeNode.keys y) = Z.to_nat (2 * BTreeNode.t p - 1) →
  length (BTreeNode.children y) = Z.to_nat (2 * BTreeNode.t p) →
  BTreeNode.n y = 2 * BTreeNode.t p - 1 →
  ∃ p' y' z mid,
    BTreeNode.split_child p i = Some p' ∧
    vget (BTreeNode.children p') i = Some (Some y') ∧
    vget (BTreeNode.children p') (i + 1) = Some (Some z) ∧
    BTreeNode.n y' = BTreeNode.t p - 1 ∧
    lkeys y' = take (Z.to_nat (BTreeNode.t p - 1)) (lkeys y) ∧
    BTreeNode.n z = BTreeNode.t p - 1 ∧
    lkeys z = drop (Z.to_nat (BTreeNode.t p)) (lkeys y) ∧
    vget (BTreeNode.keys y) (BTreeNode.t p - 1) = Some mid ∧
    vget (BTreeNode.keys p') i = Some mid ∧
    BTreeNode.n p' = BTreeNode.n p + 1.
Proof.
  intros Ht Hpk Hpc Hi Hn Hy Hty Hyk Hyc Hyn.
  set (I := Z.to_nat i). set (N := Z.to_nat (BTreeNode.n p)).
  apply vget_Some in Hy as [_ Hy]. fold I in Hy.
  destruct (drop N (BTreeNode.keys p)) as [|d J] eqn:HdJ.
  { apply (f_equal length) in HdJ. rewrite length_drop in HdJ.
    simpl in HdJ. lia. }
  destruct (drop (S N) (BTreeNode.children p)) as [|e E] eqn:HeE.
  { apply (f_equal length) in HeE. rewrite length_drop in HeE.
    simpl in HeE. lia. }
  destruct (split_child_shape p i y
              (take I (BTreeNode.keys p))
              (take (N - I) (drop I (BTreeNode.keys p))) d J
              (take I (BTreeNode.children p))
              (take (N - I) (drop (S I) (BTreeNode.children p))) e E)
    as (mid & Hmid & Hsplit); try lia.
  - rewrite <-HdJ. replace N with (I + (N - I))%nat at 2 by lia.
    by rewrite <-drop_drop, !take_drop.
  - rewrite <-HeE. replace (S N) with (S I + (N - I))%nat by lia.
    rewrite <-drop_drop, take_drop. by rewrite take_drop_middle.
  - rewrite length_take. lia.
  - rewrite !length_take. lia.
  - rewrite !length_take, !length_drop. lia.
  - rewrite !length_take, length_drop. lia.
  - eexists _, (split_left (BTreeNode.t p) y),
      (split_right (BTreeNode.t p) y), mid.
    split; [exact Hsplit|].
    cbn [BTreeNode.children BTreeNode.keys BTreeNode.n].
    split; [apply vget_middle; rewrite length_take; lia|].
    split.
    { rewrite (cons_middle (Some _) (take I _)), (assoc_L (++)).
      apply vget_middle. rewrite length_app, length_take. simpl. lia. }
    split; [done|]. split.
    { unfold lkeys, split_left. cbn [BTreeNode.keys BTreeNode.n].
      rewrite Hyn, take_take. f_equal. lia. }
    split; [done|]. split.
    { unfold lkeys, split_right. cbn [BTreeNode.keys BTreeNode.n].
      rewrite Hyn.
      replace (Z.to_nat (BTreeNode.t p - 1))
        with (Z.to_nat (BTreeNode.t p) - 1)%nat by lia.
      rewrite take_app_length' by (rewrite length_take, length_drop; lia).
      rewrite (take_ge (BTreeNode.keys y)) by lia.
      apply take_ge. rewrite length_drop. lia. }
    split; [done|]. split; [|done].
    apply vget_middle. rewrite length_take. lia.
Qed.

Lemma C5_split_child_witness :
  let y := BTreeNode.mk 2 true 3 [1; 2; 3] [None; None; None; None] in
  let p := BTreeNode.mk 2 false 0 [0; 0; 0] [Some y; None; None; None] in
  ∃ p' y' z mid,
    BTreeNode.split_child p 0 = Some p' ∧
    vget (BTreeNode.children p') 0 = Some (Some y') ∧
    vget (BTreeNode.children p') (0 + 1) = Some (Some z) ∧
    BTreeNode.n y' = BTreeNode.t p - 1 ∧
    lkeys y' = take (Z.to_nat (BTreeNode.t p - 1)) (lkeys y) ∧
    BTreeNode.n z = BTreeNode.t p - 1 ∧
    lkeys z = drop (Z.to_nat (BTreeNode.t p)) (lkeys y) ∧
    vget (BTreeNode.keys y) (BTreeNode.t p - 1) = Some mid ∧
    vget (BTreeNode.keys p') 0 = Some mid ∧
    BTreeNode.n p' = BTreeNode.n p + 1.
Proof.
  intros y p.
  apply (C5_split_child p y 0); simpl; try reflexivity; lia.
Defined.

(** C5, as stated for every node [p], fails: a full [p] has no room for the
    promoted key and the new child.  After [insert] of 16, 30, 4, 6, 2, 2,
    26, 20, 1, 29 with minimum degree 2 the root holds 3 keys and its first
    child holds 3 keys; [split_child(0, y)] on that root shifts
    [children[3]] to [children[4]], outside the vector. *)
Lemma C5_full_parent_counterexample :
  ∃ tr p y,
    BTree.insert_all (BTree.new 2) [16; 30; 4; 6; 2; 2; 26; 20; 1; 29]
    = Some tr ∧
    BTree.root tr = Some p ∧
    vget (BTreeNode.children p) 0 = Some (Some y) ∧
    BTreeNode.n y = 2 * BTreeNode.t p - 1 ∧
    BTreeNode.n p = 2 * BTreeNode.t p - 1 ∧
    BTreeNode.split_child p 0 = None.
Proof.
  eexists _, _, _. split; [vm_compute; reflexivity|].
  split; [reflexivity|]. split; [reflexivity|].
  split; [reflexivity|]. split; [reflexivity|]. vm_compute. reflexivity.
Qed.

(** C6 (height).  Let [tr] be a tree built by [insert] calls (minimum degree
    [tt >= 2], with [2 * tt] an [int]).  Then [insert] on [tr] returns, and
    the height of the result is 1 if [tr] is empty, the height of [tr] if
    its root is not full, and one more if its root is full
    ([n == 2 * tt - 1]); each of [insert], [search] and [traverse] returns
    and leaves a tree that is not lower than [tr]. *)
Theorem C6_height (tt : Z) (ks : list Z) (k : Z) :
  2 ≤ tt → 2 * tt ≤ 2147483647 →
  ∃ tr tr',
    BTree.insert_all (BTree.new tt) ks = Some tr ∧
    BTree.insert tr k = Some tr' ∧
    (BTree.root tr = None → BTree.height tr' = 1%nat) ∧
    (∀ r, BTree.root tr = Some r → BTreeNode.n r ≠ 2 * tt - 1 →
          BTree.height tr' = BTree.height tr) ∧
    (∀ r, BTree.root tr = Some r → BTreeNode.n r = 2 * tt - 1 →
          BTree.height tr' = S (BTree.height tr)) ∧
    (∀ o, ∃ tr2 rep, run tr o = Some (tr2, rep) ∧
                     (BTree.height tr ≤ BTree.height tr2)%nat).
Proof.
  intros Htt _.
  destruct (reachable_inv tt Htt ks) as (tr & Hall & Hinv & _).
  destruct (insert_spec tt Htt tr k (proj1 Hinv))
    as (tr' & Hins & _ & _ & Hempty & Hsame & Hgrow).
  exists tr, tr'. split_and!; try done.
  intros o. destruct (run_total tt tr o Htt Hinv) as (tr2 & rep & Hrun & _ & Hh).
  by exists tr2, rep.
Qed.

Lemma C6_height_witness :
  2 ≤ 2 ∧ 2 * 2 ≤ 2147483647 ∧
  ∃ tr tr',
    BTree.insert_all (BTree.new 2) [1; 2; 3] = Some tr ∧
    BTree.insert tr 4 = Some tr' ∧
    (BTree.root tr = None → BTree.height tr' = 1%nat) ∧
    (∀ r, BTree.root tr = Some r → BTreeNode.n r ≠ 2 * 2 - 1 →
          BTree.height tr' = BTree.height tr) ∧
    (∀ r, BTree.root tr = Some r → BTreeNode.n r = 2 * 2 - 1 →
          BTree.height tr' = S (BTree.height tr)) ∧
    (∀ o, ∃ tr2 rep, run tr o = Some (tr2, rep) ∧
                     (BTree.height tr ≤ BTree.height tr2)%nat).
Proof.
  split; [lia|]. split; [lia|]. apply (C6_height 2 [1; 2; 3] 4); lia.
Defined.

(** C7 (scenario B).  With minimum degree 2, after [insert] of 1, 2, 3, 4
    the root holds the single key 2, its left child holds exactly [1], its
    right child exactly [3; 4], and [traverse] emits 1, 2, 3, 4. *)
Theorem C7_root_split_scenario :
  ∃ tr r c0 c1,
    BTree.insert_all (BTree.new 2) [1; 2; 3; 4] = Some tr ∧
    BTree.root tr = Some r ∧
    BTreeNode.n r = 1 ∧ lkeys r = [2] ∧
    child_at r 0 c0 ∧ lkeys c0 = [1] ∧
    child_at r 1 c1 ∧ lkeys c1 = [3; 4] ∧
    non_null (BTreeNode.children r) = 2%nat ∧
    BTree.traverse tr = Some [1; 2; 3; 4].
Proof.
  eexists _, _, _, _. split; [vm_compute; reflexivity|].
  split; [reflexivity|]. split; [reflexivity|]. split; [reflexivity|].
  split; [split_and!; [reflexivity|simpl; lia..|reflexivity]|].
  split; [reflexivity|].
  split; [split_and!; [reflexivity|simpl; lia..|reflexivity]|].
  split; [reflexivity|]. split; reflexivity.
Qed.

(** C8 (scenario C).  With minimum degree 3, after [insert] of 10, 20, 10
    [traverse] emits 10, 10, 20, the duplicate being kept, and [search]
    answers [true] for 10 and for 20. *)
Theorem C8_duplicates_scenario :
  ∃ tr,
    BTree.insert_all (BTree.new 3) [10; 20; 10] = Some tr ∧
    BTree.traverse tr = Some [10; 10; 20] ∧
    BTree.search tr 10 = Some true ∧
    BTree.search tr 20 = Some true.
Proof. eexists. split_and!; vm_compute; reflexivity. Qed.

(** C9 (search changes nothing).  [BTreeNode::search] is not a [const]
    method; [search_st] gives the tree that a call leaves.  On any tree, a
    call of [search] that returns leaves the tree exactly as it was, root,
    keys, counts and children.  So a sequence of [search] calls that
    returns leaves the tree as it was, [traverse] gives what it gave
    before, and each answer is the one [search] gives on the tree at the
    start, the same for the same key.  On a tree built by [insert] calls
    (minimum degree [tt >= 2], with [2 * tt] an [int]) every such sequence
    returns. *)
Theorem C9_search_frame :
  (∀ (tr : BTree.tree) (k : Z) tr' b,
     BTree.search_st tr k = Some (tr', b) →
     tr' = tr ∧ BTree.search tr k = Some b) ∧
  (∀ (tr : BTree.tree) (qs : list Z) tr' reps,
     run_all tr (OpSearch <$> qs) = Some (tr', reps) →
     tr' = tr ∧ BTree.traverse tr' = BTree.traverse tr ∧
     Forall2 (λ q rep, ∃ b, BTree.search tr q = Some b ∧ rep = RBool b)
       qs reps) ∧
  (∀ (tt : Z) (ks qs : list Z),
     2 ≤ tt → 2 * tt ≤ 2147483647 →
     ∃ tr reps,
       BTree.insert_all (BTree.new tt) ks = Some tr ∧
       run_all tr (OpSearch <$> qs) = Some (tr, reps)).
Proof.
  assert (Hcall : ∀ (tr : BTree.tree) (k : Z) tr' b,
     BTree.search_st tr k = Some (tr', b) →
     tr' = tr ∧ BTree.search tr k = Some b).
  { intros tr k tr' b Hs. rewrite tree_search_st_frame in Hs.
    destruct (BTree.search tr k) as [b'|]; [|done].
    cbn [mbind option_bind] in Hs. by simplify_eq. }
  assert (Hframe : ∀ (tr : BTree.tree) (qs : list Z) tr' reps,
     run_all tr (OpSearch <$> qs) = Some (tr', reps) →
     tr' = tr ∧
     Forall2 (λ q rep, ∃ b, BTree.search tr q = Some b ∧ rep = RBool b)
       qs reps).
  { intros tr qs. revert tr. induction qs as [|q qs IH]; intros tr tr' reps Hrun.
    - simpl in Hrun. by simplify_eq.
    - cbn [fmap list_fmap run_all run] in Hrun.
      destruct (BTree.search_st tr q) as [[tr1 b]|] eqn:Hq; [|done].
      cbn [mbind option_bind] in Hrun.
      destruct (Hcall tr q tr1 b Hq) as [-> Hb].
      destruct (run_all tr (OpSearch <$> qs)) as [[tr2 rs]|] eqn:Hrest; [|done].
      cbn [mbind option_bind] in Hrun. simplify_eq.
      destruct (IH tr tr' rs Hrest) as [-> Hrs].
      split; [done|]. constructor; [by exists b|done]. }
  split; [exact Hcall|]. split.
  - intros tr qs tr' reps Hrun.
    destruct (Hframe tr qs tr' reps Hrun) as [-> Hreps]. done.
  - intros tt ks qs Htt _.
    destruct (reachable_inv tt Htt ks) as (tr & Hall & [Hwf _] & _).
    exists tr. induction qs as [|q qs [reps IH]].
    + by exists [].
    + destruct IH as [_ IH].
      destruct (tree_search_total tt Htt tr q Hwf) as [b Hb].
      exists (RBool b :: reps). split; [done|].
      cbn [fmap list_fmap run_all run]. rewrite tree_search_st_frame, Hb.
      cbn [mbind option_bind]. fold (@fmap list _ _ _ OpSearch qs).
      by rewrite IH.
Qed.

Lemma C9_search_frame_witness :
  2 ≤ 2 ∧ 2 * 2 ≤ 2147483647 ∧
  ∃ tr reps,
    BTree.insert_all (BTree.new 2) [1; 2; 3; 4] = Some tr ∧
    run_all tr (OpSearch <$> [3; 5; 3]) = Some (tr, reps).
Proof.
  split; [lia|]. split; [lia|].
  apply (proj2 (proj2 C9_search_frame) 2 [1; 2; 3; 4] [3; 5; 3]); lia.
Defined.

(** C10 (insert adds exactly one key).  For every tree built by [insert]
    calls (minimum degree [tt >= 2], with [2 * tt] an [int]) and every key
    [k], [insert] of [k] returns and [traverse] afterwards emits the
    sequence it emitted before, which is sorted, with one [k] put in at its
    sorted position. *)
Theorem C10_insert_traverse (tt : Z) (ks : list Z) (k : Z) :
  2 ≤ tt → 2 * tt ≤ 2147483647 →
  ∃ tr tr' l,
    BTree.insert_all (BTree.new tt) ks = Some tr ∧
    BTree.traverse tr = Some l ∧ Sorted Z.le l ∧
    BTree.insert tr k = Some tr' ∧
    BTree.traverse tr' = Some (insert_sorted k l).
Proof.
  intros Htt _.
  destruct (reachable_inv tt Htt ks) as (tr & Hall & Hinv & _).
  destruct (insert_inv tt Htt tr k Hinv) as (tr' & Hins & [Hwf' _] & Hel).
  destruct Hinv as [Hwf Hs].
  exists tr, tr', (tree_elems tr). split_and!; try done.
  - by apply (tree_traverse_elems tt Htt).
  - by apply StronglySorted_Sorted.
  - rewrite <-Hel. by apply (tree_traverse_elems tt Htt).
Qed.

Lemma C10_insert_traverse_witness :
  2 ≤ 2 ∧ 2 * 2 ≤ 2147483647 ∧
  ∃ tr tr' l,
    BTree.insert_all (BTree.new 2) [4; 1; 3; 1] = Some tr ∧
    BTree.traverse tr = Some l ∧ Sorted Z.le l ∧
    BTree.insert tr 2 = Some tr' ∧
    BTree.traverse tr' = Some (insert_sorted 2 l).
Proof.
  split; [lia|]. split; [lia|].
  apply (C10_insert_traverse 2 [4; 1; 3; 1] 2); lia.
Defined.

(** * Further facts about the code *)

(** ** The walk of the test program *)

Section walks.
Import BTreeNode.

Lemma for_up_ext {S} (f g : Z → S → option S) :
  (∀ j s, f j s = g j s) →
  ∀ cnt j s, for_up cnt j f s = for_up cnt j g s.
Proof.
  intros Hfg. induction cnt as [|cnt IH]; intros j s; [done|].
  simpl. rewrite Hfg. destruct (g j s); simpl; [apply IH|done].
Qed.

Lemma for_up_prefix {A} (body : Z → list A → option (list A)) :
  (∀ j pre acc, body j (pre ++ acc) = (pre ++.) <$> body j acc) →
  ∀ cnt j pre acc,
    for_up cnt j body (pre ++ acc) = (pre ++.) <$> for_up cnt j body acc.
Proof.
  intros Hbody. induction cnt as [|cnt IH]; intros j pre acc; [done|].
  simpl. rewrite Hbody. destruct (body j acc); simpl; [apply IH|done].
Qed.

Lemma collect_keys_traverse fuel : ∀ x out,
  Tests.collect_keys_recursive fuel (Some x) out
  = (out ++.) <$> traverse fuel x.
Proof.
  induction fuel as [|fuel IH]; intros x out; [done|].
  assert (Hnull : ∀ c acc,
    Tests.collect_keys_recursive fuel c acc
    = match c with
      | None => Some acc
      | Some c => o ← traverse fuel c; Some (acc ++ o)
      end).
  { intros [c|] acc; [|by destruct fuel]. rewrite IH. by destruct (traverse fuel c). }
  cbn [Tests.collect_keys_recursive].
  set (visit := λ (i : Z) (out : list Z),
         if is_leaf x then Some out
         else c ← vget (children x) i;
              match c with
              | None => Some out
              | Some c => o ← traverse fuel c; Some (out ++ o)
              end).
  set (body := λ (i : Z) (out : list Z),
         out ← visit i out; ki ← vget (keys x) i; Some (out ++ [ki])).
  assert (Hvisit : ∀ i pre acc, visit i (pre ++ acc) = (pre ++.) <$> visit i acc).
  { intros i pre acc. unfold visit. destruct (is_leaf x); [done|].
    destruct (vget (children x) i) as [[c|]|]; simpl; try done.
    destruct (traverse fuel c); simpl; [|done]. by rewrite (assoc_L (++)). }
  assert (Hbody : ∀ i pre acc, body i (pre ++ acc) = (pre ++.) <$> body i acc).
  { intros i pre acc. unfold body. rewrite Hvisit.
    destruct (visit i acc); simpl; [|done].
    destruct (vget (keys x) i); simpl; [|done]. by rewrite (assoc_L (++)). }
  change (traverse (S fuel) x)
    with (out ← for_up (Z.to_nat (n x)) 0 body []; visit (Z.max 0 (n x)) out).
  rewrite (for_up_ext _ body); cycle 1.
  { intros i acc. unfold body, visit. destruct (is_leaf x); [done|].
    destruct (vget (children x) i) as [c|]; simpl; [|done]. by rewrite Hnull. }
  rewrite <-(right_id_L [] (++) out) at 1.
  rewrite (for_up_prefix body Hbody).
  destruct (for_up (Z.to_nat (n x)) 0 body []) as [o|]; simpl; [|done].
  rewrite <-Hvisit. unfold visit. destruct (is_leaf x); [done|].
  destruct (vget (children x) (Z.max 0 (n x))) as [c|]; simpl; [|done].
  by rewrite Hnull.
Qed.

Lemma get_all_keys_traverse tr : Tests.get_all_keys tr = BTree.traverse tr.
Proof.
  unfold Tests.get_all_keys, BTree.traverse.
  destruct (BTree.root tr) as [r|]; [|done].
  rewrite collect_keys_traverse. by destruct (traverse (depth r) r).
Qed.

End walks.

(** ** The number of keys of a node across the operations *)

Section key_counts.
Import BTreeNode.

(** [split_child] adds one key to its receiver, whenever it returns. *)
Lemma split_child_n p i p' : split_child p i = Some p' → n p' = n p + 1.
Proof.
  unfold split_child. intros H.
  repeat (apply bind_Some in H as (? & _ & H)).
  match type of H with (let '(_, _) := ?x in _) = _ => destruct x end.
  repeat (apply bind_Some in H as (? & _ & H)).
  by injection H as <-.
Qed.

(** [insert_non_full] never takes a key away from its receiver. *)
Lemma insert_non_full_n fuel x k x' :
  insert_non_full fuel x k = Some x' → n x ≤ n x' ≤ n x + 1.
Proof.
  destruct fuel as [|fuel]; [done|]. cbn [insert_non_full].
  destruct (is_leaf x).
  - intros H. apply bind_Some in H as ([ks i] & _ & H).
    apply bind_Some in H as (? & _ & H). injection H as <-. simpl. lia.
  - intros H. apply bind_Some in H as (i & _ & H).
    apply bind_Some in H as (c & _ & H).
    apply bind_Some in H as ([this j] & Hsplit & H).
    repeat (apply bind_Some in H as (? & _ & H)).
    injection H as <-. cbn [set_children n].
    destruct (decide (n c = 2 * t x - 1)).
    + apply bind_Some in Hsplit as (this' & Hs%split_child_n & H).
      apply bind_Some in H as (? & _ & H). injection H as <- _. lia.
    + injection Hsplit as <- _. lia.
Qed.

(** [insert] leaves a root with at least one key. *)
Lemma insert_root_n tr k tr' :
  BTree.insert tr k = Some tr' →
  (∀ r, BTree.root tr = Some r → 1 ≤ n r) →
  ∃ r', BTree.root tr' = Some r' ∧ 1 ≤ n r'.
Proof.
  unfold BTree.insert. destruct (BTree.root tr) as [r|].
  - intros H Hr. specialize (Hr r eq_refl).
    destruct (decide (n r = 2 * BTree.t tr - 1)).
    + apply bind_Some in H as (s0 & Hs0 & H).
      apply bind_Some in H as (ch & _ & H).
      apply bind_Some in H as (s & Hs%split_child_n & H).
      repeat (apply bind_Some in H as (? & _ & H)).
      injection H as <-. eexists. split; [done|].
      cbn [set_children n] in *. rewrite Hs.
      unfold new_node in Hs0. case_decide; [|done]. injection Hs0 as <-.
      simpl. lia.
    + apply bind_Some in H as (r' & Hins%insert_non_full_n & H).
      injection H as <-. eexists. split; [done|]. lia.
  - intros H _.
    repeat (apply bind_Some in H as (? & _ & H)).
    injection H as <-. eexists. split; [done|]. simpl. lia.
Qed.

Lemma insert_all_root_n ks : ∀ tr tr',
  BTree.insert_all tr ks = Some tr' →
  (∀ r, BTree.root tr = Some r → 1 ≤ n r) →
  ∀ r', BTree.root tr' = Some r' → 1 ≤ n r'.
Proof.
  induction ks as [|k ks IH]; intros tr tr' H Hr.
  - injection H as <-. done.
  - simpl in H. apply bind_Some in H as (tr1 & Hins & H).
    apply (IH tr1 tr' H).
    intros r Hr1. destruct (insert_root_n tr k tr1 Hins Hr) as (r1 & ? & ?).
    congruence.
Qed.

End key_counts.

(** ** The number of keys of a subtree *)

Section counting.
Import BTreeNode.
Variable tt : Z.
Hypothesis Htt : 1 ≤ tt.

Lemma length_iright ks : ∀ cs,
  length cs = length ks →
  length (iright ks cs) = (length (concat cs) + length ks)%nat.
Proof.
  induction ks as [|k ks IH]; intros [|c cs] Hlen; try done.
  simpl in *. rewrite !length_app, IH by lia. lia.
Qed.

Lemma length_interleave cs ks :
  length cs = S (length ks) →
  length (interleave cs ks) = (length (concat cs) + length ks)%nat.
Proof.
  destruct cs as [|c cs]; [done|]. intros [= Hlen]. simpl.
  rewrite !length_app, length_iright by done. lia.
Qed.

Lemma length_concat_lower (b : Z) (ls : list (list Z)) :
  Forall (λ l, b ≤ Z.of_nat (length l)) ls →
  b * Z.of_nat (length ls) ≤ Z.of_nat (length (concat ls)).
Proof.
  induction 1 as [|l ls Hl _ IH]; simpl; [lia|]. rewrite length_app. lia.
Qed.

Lemma length_concat_upper (b : Z) (ls : list (list Z)) :
  Forall (λ l, Z.of_nat (length l) ≤ b) ls →
  Z.of_nat (length (concat ls)) ≤ b * Z.of_nat (length ls).
Proof.
  induction 1 as [|l ls Hl _ IH]; simpl; [lia|]. rewrite length_app. lia.
Qed.

(** The number of keys of an internal node's subtree. *)
Lemma wf_length_elems h x :
  wf tt (S h) x → is_leaf x = false →
  ∃ cs : list node,
    length cs = Z.to_nat (n x + 1) ∧
    Forall (λ c, wf tt h c ∧ tt - 1 ≤ n c) cs ∧
    Z.of_nat (length (elems (S h) x))
    = Z.of_nat (length (concat (elems h <$> cs))) + n x.
Proof using Htt.
  destruct x as [xt xl xn xk xc]. cbn [wf t is_leaf n keys children].
  intros (-> & Hk & Hn & Hc) ->. destruct Hc as (cs & -> & Hlen & Hcs).
  exists cs. split_and!; try done.
  rewrite elems_internal_mk by done.
  rewrite length_interleave; rewrite ?length_fmap, ?length_take; lia.
Qed.

Lemma wf_leaf_elems h x :
  wf tt h x → is_leaf x = true →
  h = 1%nat ∧ Z.of_nat (length (elems h x)) = n x.
Proof using Htt.
  destruct h as [|h]; [done|]. destruct x as [xt xl xn xk xc].
  cbn [wf t is_leaf n keys children].
  intros (-> & Hk & Hn & Hc) ->. destruct Hc as [-> _]. split; [done|].
  rewrite elems_leaf by done. unfold lkeys. cbn [n keys].
  rewrite length_take. lia.
Qed.

(** A subtree of [h] levels below the root holds at least [tt ^ h - 1]
    keys. *)
Lemma wf_keys_lower h : ∀ x,
  wf tt h x → tt - 1 ≤ n x →
  tt ^ Z.of_nat h - 1 ≤ Z.of_nat (length (elems h x)).
Proof using Htt.
  induction h as [|h IH]; intros x Hwf Hmin; [done|].
  destruct (is_leaf x) eqn:Hleaf.
  - destruct (wf_leaf_elems _ x Hwf Hleaf) as [[= ->] ->]. simpl. lia.
  - destruct (wf_length_elems h x Hwf Hleaf) as (cs & Hlen & Hcs & ->).
    assert (Hsum : (tt ^ Z.of_nat h - 1) * Z.of_nat (length (elems h <$> cs))
                   ≤ Z.of_nat (length (concat (elems h <$> cs)))).
    { apply length_concat_lower, Forall_fmap.
      eapply Forall_impl; [exact Hcs|]. intros c [? ?]. by apply IH. }
    rewrite length_fmap in Hsum.
    rewrite Nat2Z.inj_succ, Z.pow_succ_r by lia.
    pose proof (Z.pow_pos_nonneg tt (Z.of_nat h)) as Hpos.
    pose proof (wf_n_bounds tt _ x Hwf). nia.
Qed.

(** A subtree of [h] levels holds at most [(2 * tt) ^ h - 1] keys. *)
Lemma wf_keys_upper h : ∀ x,
  wf tt h x → Z.of_nat (length (elems h x)) ≤ (2 * tt) ^ Z.of_nat h - 1.
Proof using Htt.
  induction h as [|h IH]; intros x Hwf; [done|].
  pose proof (wf_n_bounds tt _ x Hwf) as Hn.
  destruct (is_leaf x) eqn:Hleaf.
  - destruct (wf_leaf_elems _ x Hwf Hleaf) as [[= ->] ->]. simpl. lia.
  - destruct (wf_length_elems h x Hwf Hleaf) as (cs & Hlen & Hcs & ->).
    assert (Hsum : Z.of_nat (length (concat (elems h <$> cs)))
                   ≤ ((2 * tt) ^ Z.of_nat h - 1)
                     * Z.of_nat (length (elems h <$> cs))).
    { apply length_concat_upper, Forall_fmap.
      eapply Forall_impl; [exact Hcs|]. intros c [? ?]. by apply IH. }
    rewrite length_fmap in Hsum.
    rewrite Nat2Z.inj_succ, Z.pow_succ_r by lia.
    pose proof (Z.pow_pos_nonneg (2 * tt) (Z.of_nat h)) as Hpos. nia.
Qed.

(** A tree of [S h] levels whose root holds a key holds at least
    [2 * tt ^ h - 1] keys. *)
Lemma wf_keys_root h x :
  wf tt (S h) x → 1 ≤ n x →
  2 * tt ^ Z.of_nat h - 1 ≤ Z.of_nat (length (elems (S h) x)).
Proof using Htt.
  intros Hwf Hmin. destruct (is_leaf x) eqn:Hleaf.
  - destruct (wf_leaf_elems _ x Hwf Hleaf) as [[= ->] ->]. simpl. lia.
  - destruct (wf_length_elems h x Hwf Hleaf) as (cs & Hlen & Hcs & ->).
    assert (Hsum : (tt ^ Z.of_nat h - 1) * Z.of_nat (length (elems h <$> cs))
                   ≤ Z.of_nat (length (concat (elems h <$> cs)))).
    { apply length_concat_lower, Forall_fmap.
      eapply Forall_impl; [exact Hcs|]. intros c [? ?]. by apply wf_keys_lower. }
    rewrite length_fmap in Hsum.
    pose proof (Z.pow_pos_nonneg tt (Z.of_nat h)) as Hpos. nia.
Qed.

End counting.

(** ** The node found by [search] *)

Section found_node.
Import BTreeNode.
Variable tt : Z.
Hypothesis Htt : 1 ≤ tt.

(** The pointer returned by [search] is a node of the subtree that holds
    the key. *)
Lemma search_result h : ∀ x k fuel nd,
  wf tt h x → (h ≤ fuel)%nat →
  search fuel x k = Some (Some nd) → rtc child x nd ∧ holds_key nd k.
Proof using Htt.
  induction h as [|h IH]; intros x k fuel nd Hwf Hfuel Hsearch; [done|].
  destruct fuel as [|fuel]; [lia|].
  assert (Hchild : ∀ i c, child_at x i c → wf tt h c).
  { intros i c Hc.
    by destruct (wf_child_at tt Htt h x i c Hwf Hc) as (_ & _ & _ & _ & ? & _). }
  pose proof (wf_n_bounds tt _ x Hwf) as Hn.
  cbn [search] in Hsearch.
  apply bind_Some in Hsearch as (i & Hscan & Hsearch).
  assert (Hi : 0 ≤ i ≤ n x).
  { destruct x as [xt xl xn xk xc].
    cbn [wf t is_leaf n keys children] in Hwf, Hscan, Hn |- *.
    destruct Hwf as (_ & Hk & _).
    destruct (scan_spec k (drop (Z.to_nat xn) xk) (take (Z.to_nat xn) xk)
                [] (Z.to_nat xn) 0 xn)
      as (L & R & HLR & _ & _ & Hscan');
      [rewrite length_take; lia|done|done|rewrite length_take; simpl; lia|].
    cbn [app] in HLR, Hscan'. rewrite take_drop in Hscan'.
    assert (i = Z.of_nat (length L)) as -> by congruence.
    apply (f_equal length) in HLR.
    rewrite length_app, length_take in HLR. lia. }
  apply bind_Some in Hsearch as (found & Hfound & Hsearch).
  destruct found.
  - injection Hsearch as <-. split; [done|].
    case_decide; [|done].
    apply bind_Some in Hfound as (ki & Hki & [= Heq%bool_decide_eq_true]).
    subst ki. exists i. split; [lia|done].
  - destruct (is_leaf x) eqn:Hleaf; [done|].
    apply bind_Some in Hsearch as ([c|] & Hc & Hsearch); [|by case_decide].
    assert (Hca : child_at x i c) by done.
    destruct (IH c k fuel nd) as [Hpath Hk]; [by eapply Hchild|lia|done|].
    split; [|done]. eapply rtc_l; [by exists i|done].
Qed.

End found_node.

(** ** The destructor *)

Section destructor.
Import BTreeNode.
Variable tt : Z.
Hypothesis Htt : 1 ≤ tt.

Lemma linked_below_children a b c d (cs : list node) m :
  linked_below (mk a b c d ((Some <$> cs) ++ replicate m None))
  = foldr (λ c acc, linked_below c ++ c :: acc) [] cs.
Proof.
  cbn [linked_below]. rewrite foldr_app.
  assert (foldr (λ (oc : option node) acc,
                   match oc with
                   | Some c => linked_below c ++ c :: acc
                   | None => acc
                   end) [] (replicate m None) = []) as ->.
  { induction m; by simpl. }
  induction cs as [|c' cs IH]; [done|].
  cbn [fmap list_fmap foldr]. do 2 f_equal. apply IH.
Qed.

(** The loop of the destructor over the children [P], the slots before
    them already set to null. *)
Lemma destroy_loop (f : node → option (list node)) (g : node → list node)
    (rest : list (option node)) (P : list node) : ∀ (D : nat) acc j,
  Forall (λ c, f c = Some (g c)) P →
  j = Z.of_nat D →
  for_up (length P) j
    (λ i '(ch, freed),
       c ← vget ch i;
       match c with
       | None => Some (ch, freed)
       | Some c =>
           below ← f c;
           ch' ← vset ch i None;
           Some (ch', freed ++ below ++ [c])
       end)
    (replicate D None ++ (Some <$> P) ++ rest, acc)
  = Some (replicate (D + length P) None ++ rest,
          acc ++ foldr (λ c a, g c ++ c :: a) [] P).
Proof.
  induction P as [|p P IH]; intros D acc j HP ->.
  { simpl. by rewrite Nat.add_0_r, (right_id_L [] (++)). }
  apply Forall_cons in HP as [Hp HP].
  cbn [length for_up fmap list_fmap app].
  rewrite vget_middle by by rewrite length_replicate.
  cbn [mbind option_bind]. rewrite Hp. cbn [mbind option_bind].
  rewrite vset_middle by by rewrite length_replicate.
  cbn [mbind option_bind].
  rewrite (cons_middle None (replicate D None)), (assoc_L (++) (replicate D None)).
  rewrite <-replicate_S_end.
  rewrite (IH (S D) _ _ HP) by lia.
  do 2 f_equal.
  - do 2 f_equal. lia.
  - cbn [foldr]. by rewrite <-!(assoc_L (++)).
Qed.

(** The destructor frees every node linked below a well-formed node. *)
Lemma destroy_linked h : ∀ x fuel,
  wf tt h x → (h ≤ fuel)%nat → destroy fuel x = Some (linked_below x).
Proof using Htt.
  induction h as [|h IH]; intros x fuel Hwf Hfuel; [done|].
  destruct fuel as [|fuel]; [lia|].
  destruct x as [xt xl xn xk xc].
  cbn [wf t is_leaf n keys children] in Hwf.
  destruct Hwf as (-> & Hk & Hn & Hc).
  cbn [destroy is_leaf n keys children t].
  destruct xl.
  - destruct Hc as [_ ->].
    f_equal. symmetry.
    exact (linked_below_children tt true xn xk [] (Z.to_nat (2 * tt))).
  - destruct Hc as (cs & -> & Hlen & Hcs).
    rewrite linked_below_children. rewrite <-Hlen.
    pose proof (destroy_loop (destroy fuel) linked_below
                  (replicate (Z.to_nat (2 * tt - xn - 1)) None) cs O [] 0)
      as Hloop.
    cbn [replicate app] in Hloop. rewrite Hloop; [done| |done].
    eapply Forall_impl; [exact Hcs|]. intros c [Hc _]. apply IH; [done|lia].
Qed.

End destructor.

(** ** [split_child] and [insert_non_full] on their own *)

Section contracts.
Import BTreeNode.
Variable tt : Z.
Hypothesis Htt : 1 ≤ tt.

(** [split_child] on a well-formed node that is not full, for a full
    child: the node stays well-formed, gains one key and keeps its
    in-order sequence. *)
Lemma split_child_wf h p i y :
  wf tt (S h) p → n p < 2 * tt - 1 → child_at p i y → n y = 2 * tt - 1 →
  ∃ p', split_child p i = Some p' ∧ wf tt (S h) p' ∧
        n p' = n p + 1 ∧ elems (S h) p' = elems (S h) p.
Proof using Htt.
  intros Hwf Hfull Hchild Hyfull.
  destruct (wf_child_at tt Htt h p i y Hwf Hchild)
    as (_ & _ & _ & _ & Hy & _).
  destruct p as [xt xl xn xk xc]. unfold child_at in Hchild.
  cbn [wf t is_leaf n keys children] in Hwf, Hfull, Hchild.
  destruct Hwf as (-> & Hk & Hn & Hc). destruct Hchild as (-> & Hi & Hget).
  destruct Hc as (cs & -> & Hlen & Hcs).
  apply vget_Some in Hget as [_ Hget].
  rewrite lookup_app_l in Hget by (rewrite length_fmap; lia).
  rewrite list_lookup_fmap in Hget.
  destruct (cs !! Z.to_nat i) as [y'|] eqn:Hci; [|done].
  simpl in Hget. injection Hget as ->.
  pose proof (take_drop_middle cs _ y Hci) as Hsplit.
  assert (HlenA : length (take (Z.to_nat i) cs) = Z.to_nat i).
  { rewrite length_take. lia. }
  assert (HlenB : length (drop (S (Z.to_nat i)) cs) = Z.to_nat (xn - i)).
  { rewrite length_drop. lia. }
  revert Hsplit HlenA HlenB.
  generalize (take (Z.to_nat i) cs) (drop (S (Z.to_nat i)) cs).
  intros A B <- HlenA HlenB. clear Hci.
  apply Forall_app in Hcs as [HA [_ HB]%Forall_cons].
  set (L := take (Z.to_nat i) xk).
  set (R := take (Z.to_nat (xn - i)) (drop (Z.to_nat i) xk)).
  assert (HlenL : length L = Z.to_nat i).
  { unfold L. rewrite length_take. lia. }
  assert (HlenR : length R = Z.to_nat (xn - i)).
  { unfold R. rewrite length_take, length_drop. lia. }
  destruct (drop (Z.to_nat xn) xk) as [|d J] eqn:HdJ.
  { apply (f_equal length) in HdJ. rewrite length_drop in HdJ.
    simpl in HdJ. lia. }
  assert (Hxk : xk = L ++ R ++ d :: J).
  { rewrite <-HdJ. unfold L, R.
    rewrite <-(take_drop (Z.to_nat i) xk) at 1. f_equal.
    rewrite <-(take_drop (Z.to_nat (xn - i)) (drop (Z.to_nat i) xk)) at 1.
    f_equal. rewrite drop_drop. f_equal. lia. }
  assert (HlenJ : (length L + length R + 1 + length J)%nat
                  = Z.to_nat (2 * tt - 1)).
  { rewrite <-Hk, Hxk, !length_app. simpl. lia. }
  clearbody L R. clear HdJ Hk. subst xk.
  set (E := replicate (Z.to_nat (2 * tt - xn - 2)) (@None node)).
  replace (Z.to_nat (2 * tt - xn - 1)) with (S (Z.to_nat (2 * tt - xn - 2)))
    by lia.
  cbn [replicate]. fold E.
  rewrite fmap_app, fmap_cons, <-(assoc_L (++)). cbn [app].
  destruct (split_child_shape
              (mk tt false xn (L ++ R ++ d :: J)
                 ((Some <$> A) ++ Some y :: (Some <$> B) ++ None :: E))
              i y L R d J (Some <$> A) (Some <$> B) None E)
    as (mid & Hmid & Hshape); cbn [t n keys children is_leaf];
    try (rewrite ?length_fmap; done || lia).
  { destruct h; [done|]. by destruct Hy as (? & _). }
  { destruct h; [done|]. destruct Hy as (_ & ? & _). lia. }
  { rewrite (wf_length_children tt h y) by (done || lia). lia. }
  cbn [t n keys children is_leaf] in Hshape, Hmid.
  eexists. split; [exact Hshape|].
  pose proof (split_left_wf tt Htt h y Hy Hyfull) as Hyl.
  pose proof (split_right_wf tt Htt h y Hy Hyfull) as Hzr.
  destruct (split_elems tt Htt h y Hy Hyfull) as (mid' & Hmid' & Helems).
  assert (mid' = mid) as -> by congruence.
  set (yl := split_left tt y) in *. set (zr := split_right tt y) in *.
  assert (Hnyl : n yl = tt - 1) by done.
  assert (Hnzr : n zr = tt - 1) by done.
  clearbody yl zr.
  assert (HE : E = replicate (Z.to_nat (2 * tt - (xn + 1) - 1)) None).
  { unfold E. f_equal. lia. }
  assert (HE' : None :: E = replicate (Z.to_nat (2 * tt - xn - 1)) None).
  { unfold E.
    by replace (Z.to_nat (2 * tt - xn - 1))
      with (S (Z.to_nat (2 * tt - xn - 2))) by lia. }
  clearbody E.
  rewrite (cons_middle (Some yl) (Some <$> A)), (assoc_L (++) (Some <$> A)).
  change ((Some <$> A) ++ [Some yl]) with ((Some <$> A) ++ (Some <$> [yl])).
  rewrite <-fmap_app, children_assoc.
  rewrite (children_assoc A B y (None :: E)).
  refine (conj _ (conj _ _)).
  - apply wf_internal_mk; try done.
    + rewrite !length_app. simpl. rewrite length_app. lia.
    + lia.
    + rewrite !length_app. simpl. lia.
    + rewrite !Forall_app, !Forall_cons, Forall_nil.
      split_and!; try done; lia.
  - done.
  - rewrite HE', HE.
    rewrite !elems_internal_mk by (rewrite !length_app; simpl; lia).
    rewrite take_keys by lia.
    rewrite (assoc_L (++) L R), take_app_length' by (rewrite length_app; lia).
    rewrite <-(assoc_L (++) A), !fmap_app, !fmap_cons, Helems.
    cbn [fmap list_fmap app].
    by rewrite interleave_promote by (rewrite length_fmap; lia).
Qed.

(** [insert_non_full] on a leaf whose key vector is used up writes past
    its end. *)
Lemma insert_non_full_full_leaf fuel x k :
  is_leaf x = true → n x = Z.of_nat (length (keys x)) →
  insert_non_full fuel x k = None.
Proof.
  intros Hleaf Hn. destruct fuel as [|fuel]; [done|].
  cbn [insert_non_full]. rewrite Hleaf, shift_keys_unfold.
  assert (Hoob : ∀ v, vset (keys x) (n x) v = None).
  { intros v. unfold vset. rewrite decide_False by lia. done. }
  destruct (decide (0 ≤ n x - 1)) as [Hpos|Hneg].
  - destruct (vget (keys x) (n x - 1)) as [ki|]; [|done].
    cbn [mbind option_bind].
    replace (n x - 1 + 1) with (n x) by lia.
    destruct (decide (ki > k)).
    + destruct (Z.to_nat (n x)); [done|]. by rewrite Hoob.
    + cbn [mbind option_bind].
      replace (n x - 1 + 1) with (n x) by lia. by rewrite Hoob.
  - cbn [mbind option_bind].
    replace (n x - 1 + 1) with (n x) by lia. by rewrite Hoob.
Qed.

End contracts.

(** * Trees built by [insert] calls *)

Section reachable.
Import BTreeNode.
Variable tt : Z.
Hypothesis Htt : 1 ≤ tt.

(** [search] decides membership in the in-order sequence. *)
Lemma tree_search_decides tr k :
  tree_inv tt tr →
  BTree.search tr k = Some (bool_decide (k ∈ tree_elems tr)).
Proof using Htt.
  intros Hinv. case_bool_decide as Hk.
  - by apply (tree_search_found' tt Htt).
  - destruct (tree_search_total' tt Htt tr k (proj1 Hinv)) as [[|] Hb]; [|done].
    by apply (tree_search_sound' tt Htt) in Hb; [|by destruct Hinv].
Qed.

(** The trees built from the empty tree, with what is known of their
    root. *)
Lemma reachable_root ks :
  ∃ tr, BTree.insert_all (BTree.new tt) ks = Some tr ∧ tree_inv tt tr ∧
        tree_elems tr ≡ₚ ks ∧
        (∀ r, BTree.root tr = Some r → 1 ≤ n r) ∧
        (ks ≠ [] → ∃ r h, BTree.root tr = Some r ∧ wf tt (S h) r ∧
                          BTree.height tr = S h).
Proof using Htt.
  destruct (reachable_inv' tt Htt ks) as (tr & Hall & Hinv & Hel).
  exists tr. split_and!; try done.
  - by apply (insert_all_root_n ks (BTree.new tt)).
  - intros Hks. destruct Hinv as [[_ Hr] _].
    unfold tree_elems, BTree.height in *.
    destruct (BTree.root tr) as [r|].
    + destruct Hr as [[|h] Hr]; [done|]. exists r, h.
      by rewrite (wf_depth tt _ r Hr).
    + by apply Permutation_nil_l in Hel.
Qed.

(** With minimum degree [1] a node is full as soon as it holds a key:
    every [insert] adds a level. *)
Lemma insert_all_height_one ks : ∀ tr,
  tt = 1 → tree_inv tt tr → (∀ r, BTree.root tr = Some r → 1 ≤ n r) →
  ∃ tr', BTree.insert_all tr ks = Some tr' ∧
         BTree.height tr' = (BTree.height tr + length ks)%nat.
Proof using Htt.
  induction ks as [|k ks IH]; intros tr Hone Hinv Hroot.
  { exists tr. split; [done|]. simpl. lia. }
  destruct (insert_inv' tt Htt tr k Hinv) as (tr1 & Hins & Hinv1 & _).
  destruct (insert_spec' tt Htt tr k (proj1 Hinv))
    as (tr1' & Hins' & _ & _ & Hempty & _ & Hgrow).
  assert (tr1' = tr1) as -> by congruence.
  destruct (IH tr1 Hone Hinv1) as (tr' & Hall & Hh).
  { intros r Hr. destruct (insert_root_n tr k tr1 Hins Hroot) as (r1 & ? & ?).
    congruence. }
  exists tr'. simpl. rewrite Hins. simpl. split; [done|]. rewrite Hh.
  destruct (BTree.root tr) as [r|] eqn:Hr.
  - rewrite (Hgrow r); [lia|done|].
    specialize (Hroot r eq_refl).
    destruct Hinv as [[_ Hwf] _]. rewrite Hr in Hwf. destruct Hwf as [h Hwf].
    apply wf_n_bounds in Hwf. lia.
  - rewrite Hempty by done. unfold BTree.height. rewrite Hr. simpl. lia.
Qed.

(** Every node of the tree is linked below the root. *)
Lemma child_linked x c :
  child x c → c ∈ linked_below x ∧ ∀ y, y ∈ linked_below c → y ∈ linked_below x.
Proof.
  intros (i & _ & _ & [_ Hget]%vget_Some).
  apply list_elem_of_lookup_2 in Hget.
  destruct x as [xt xl xn xk xc]. cbn [children linked_below] in *.
  induction xc as [|oc xc IH]; [by apply elem_of_nil in Hget|].
  apply elem_of_cons in Hget as [<-|Hin]; cbn [foldr].
  - split; [|intros y Hy]; rewrite elem_of_app, ?elem_of_cons; auto.
  - destruct (IH Hin) as [Hc Hsub].
    destruct oc as [c'|]; [|done].
    split; [|intros y Hy]; rewrite elem_of_app, ?elem_of_cons; auto.
Qed.

Lemma descendant_linked x y :
  rtc child x y → x = y ∨ y ∈ linked_below x.
Proof.
  induction 1 as [x|x c y Hc _ IH]; [by left|]. right.
  destruct (child_linked x c Hc) as [Hin Hsub].
  destruct IH as [<-|Hy]; auto.
Qed.

End reachable.

(** * Further properties of the operations

    As above, the properties of the trees built from [BTree(tt)] are stated
    for the degrees with [2 * tt <= INT_MAX = 2147483647]. *)

(** X1 (search decides membership). On the tree built by [insert] of the
    keys [ks] (minimum degree [tt >= 2], with [2 * tt] an [int]), [search]
    answers [true] for the keys of [ks] and [false] for every other key. *)
Theorem X1_search_iff_inserted (tt : Z) (ks : list Z) (k : Z) :
  2 ≤ tt → 2 * tt ≤ 2147483647 →
  ∃ tr, BTree.insert_all (BTree.new tt) ks = Some tr ∧
        BTree.search tr k = Some (bool_decide (k ∈ ks)).
Proof. intros Htt _. by apply search_decides. Qed.

Lemma X1_search_iff_inserted_witness :
  2 ≤ 2 ∧ 2 * 2 ≤ 2147483647 ∧
  ∃ tr, BTree.insert_all (BTree.new 2) [3; 1; 4; 1; 5; 9; 2; 6] = Some tr ∧
        BTree.search tr 7 = Some (bool_decide (7 ∈ [3; 1; 4; 1; 5; 9; 2; 6])).
Proof.
  split; [lia|]. split; [lia|].
  apply (X1_search_iff_inserted 2 [3; 1; 4; 1; 5; 9; 2; 6] 7); lia.
Defined.

(** X2 (nothing lost, nothing invented). On the tree built by [insert] of
    the keys [ks] (minimum degree [tt >= 2], with [2 * tt] an [int]),
    [traverse] emits a sorted rearrangement of [ks]: every key as often as
    it was inserted. *)
Theorem X2_traverse_permutation (tt : Z) (ks : list Z) :
  2 ≤ tt → 2 * tt ≤ 2147483647 →
  ∃ tr l, BTree.insert_all (BTree.new tt) ks = Some tr ∧
          BTree.traverse tr = Some l ∧ l ≡ₚ ks ∧ Sorted Z.le l.
Proof.
  intros Htt _.
  destruct (reachable_inv tt Htt ks) as (tr & Hall & [Hwf Hs] & Hel).
  exists tr, (tree_elems tr). split_and!; [done| |done|].
  - by apply (tree_traverse_elems tt Htt).
  - by apply StronglySorted_Sorted.
Qed.

Lemma X2_traverse_permutation_witness :
  2 ≤ 2 ∧ 2 * 2 ≤ 2147483647 ∧
  ∃ tr l, BTree.insert_all (BTree.new 2) [3; 1; 4; 1; 5; 9; 2; 6] = Some tr ∧
          BTree.traverse tr = Some l ∧ l ≡ₚ [3; 1; 4; 1; 5; 9; 2; 6] ∧
          Sorted Z.le l.
Proof.
  split; [lia|]. split; [lia|].
  apply (X2_traverse_permutation 2 [3; 1; 4; 1; 5; 9; 2; 6]); lia.
Defined.

(** X3 (balance).  In every tree built by [insert] calls (minimum degree
    [tt >= 2], with [2 * tt] an [int]) all leaves are at the same depth: a
    leaf reached from the root by [d] child steps is on level [d + 1], the
    height of the tree. *)
Theorem X3_leaves_same_depth (tt : Z) (ks : list Z) :
  2 ≤ tt → 2 * tt ≤ 2147483647 →
  ∃ tr, BTree.insert_all (BTree.new tt) ks = Some tr ∧
        ∀ r y d, BTree.root tr = Some r → nsteps child d r y →
                 BTreeNode.is_leaf y = true → BTree.height tr = S d.
Proof.
  intros Htt _.
  destruct (reachable_inv tt Htt ks) as (tr & Hall & [[_ Hr] _] & _).
  exists tr. split; [done|]. intros r y d Hroot Hpath Hleaf.
  unfold BTree.height. rewrite Hroot in *. destruct Hr as [h Hr].
  rewrite (wf_depth tt h r Hr). by apply (wf_leaf_level tt Htt d r y).
Qed.

Lemma X3_leaves_same_depth_witness :
  2 ≤ 2 ∧ 2 * 2 ≤ 2147483647 ∧
  ∃ tr, BTree.insert_all (BTree.new 2) [1; 2; 3; 4; 5; 6; 7; 8; 9; 10] = Some tr ∧
        ∀ r y d, BTree.root tr = Some r → nsteps child d r y →
                 BTreeNode.is_leaf y = true → BTree.height tr = S d.
Proof.
  split; [lia|]. split; [lia|].
  apply (X3_leaves_same_depth 2 [1; 2; 3; 4; 5; 6; 7; 8; 9; 10]); lia.
Defined.

(** X4 (the pointer returned by [search]). On the tree built by [insert] of
    the keys [ks] (minimum degree [tt >= 2], with [2 * tt] an [int]),
    [BTreeNode::search] called on the root returns; a non-null result is a
    node of the tree that holds [k] among its [n] keys, and the result is
    null only if [k] was never inserted. *)
Theorem X4_search_returns_holder (tt : Z) (ks : list Z) (k : Z) :
  2 ≤ tt → 2 * tt ≤ 2147483647 →
  ∃ tr, BTree.insert_all (BTree.new tt) ks = Some tr ∧
        ∀ r, BTree.root tr = Some r →
          ∃ p, BTreeNode.search (BTreeNode.depth r) r k = Some p ∧
               match p with
               | Some nd => in_tree tr nd ∧ holds_key nd k
               | None => k ∉ ks
               end.
Proof.
  intros Htt _. pose proof (degree_positive tt Htt) as Htt1.
  destruct (reachable_inv tt Htt ks) as (tr & Hall & [[_ Hr] Hs] & Hel).
  exists tr. split; [done|]. intros r Hroot.
  unfold tree_elems in *. rewrite Hroot in *. destruct Hr as [h Hr].
  rewrite (wf_depth tt h r Hr) in *.
  destruct (search_total tt Htt1 h r k h Hr) as [p Hp]; [done|].
  exists p. split; [done|]. destruct p as [nd|].
  - destruct (search_result tt Htt1 h r k h nd Hr) as [Hpath Hk]; [done|done|].
    split; [|done]. by exists r.
  - intros Hin. rewrite <-Hel in Hin.
    destruct (search_found tt Htt1 h r k h Hr Hs Hin) as [nd Hnd]; [done|].
    congruence.
Qed.

Lemma X4_search_returns_holder_witness :
  2 ≤ 2 ∧ 2 * 2 ≤ 2147483647 ∧
  ∃ tr, BTree.insert_all (BTree.new 2) [3; 1; 4; 1; 5; 9; 2; 6] = Some tr ∧
        ∀ r, BTree.root tr = Some r →
          ∃ p, BTreeNode.search (BTreeNode.depth r) r 9 = Some p ∧
               match p with
               | Some nd => in_tree tr nd ∧ holds_key nd 9
               | None => 9 ∉ [3; 1; 4; 1; 5; 9; 2; 6]
               end.
Proof.
  split; [lia|]. split; [lia|].
  apply (X4_search_returns_holder 2 [3; 1; 4; 1; 5; 9; 2; 6] 9); lia.
Defined.

(** X5 (the root). After at least one [insert] (minimum degree [tt >= 2],
    with [2 * tt] an [int]) the tree has a root, which holds between [1] and
    [2 * tt - 1] keys and, if it is not a leaf, at least two children. *)
Theorem X5_root_keys (tt : Z) (ks : list Z) :
  2 ≤ tt → 2 * tt ≤ 2147483647 → ks ≠ [] →
  ∃ tr r, BTree.insert_all (BTree.new tt) ks = Some tr ∧
          BTree.root tr = Some r ∧
          1 ≤ BTreeNode.n r ≤ 2 * tt - 1 ∧
          (BTreeNode.is_leaf r = false →
           2 ≤ Z.of_nat (non_null (BTreeNode.children r))).
Proof.
  intros Htt _ Hks. pose proof (degree_positive tt Htt) as Htt1.
  destruct (reachable_root tt Htt1 ks) as (tr & Hall & _ & _ & Hn & Hroot).
  destruct (Hroot Hks) as (r & h & Hr & Hwf & _).
  exists tr, r. specialize (Hn r Hr).
  pose proof (wf_n_bounds tt _ r Hwf). split_and!; try done; try lia.
  intros Hleaf. destruct (wf_fanout tt Htt _ r Hwf Hleaf) as [-> _]. lia.
Qed.

Lemma X5_root_keys_witness :
  2 ≤ 2 ∧ 2 * 2 ≤ 2147483647 ∧ [1; 2; 3; 4] ≠ [] ∧
  ∃ tr r, BTree.insert_all (BTree.new 2) [1; 2; 3; 4] = Some tr ∧
          BTree.root tr = Some r ∧
          1 ≤ BTreeNode.n r ≤ 2 * 2 - 1 ∧
          (BTreeNode.is_leaf r = false →
           2 ≤ Z.of_nat (non_null (BTreeNode.children r))).
Proof.
  split; [lia|]. split; [lia|]. split; [done|].
  apply (X5_root_keys 2 [1; 2; 3; 4]); [lia|lia|done].
Defined.

(** X6 (logarithmic height).  A tree of minimum degree [tt >= 2], with
    [2 * tt] an [int], built by [insert] of [N >= 1] keys and [h] levels
    high satisfies [2 * tt ^ (h - 1) - 1 <= N <= (2 * tt) ^ h - 1]: the
    height is at most [1 + log_tt ((N + 1) / 2)]. *)
Theorem X6_height_logarithmic (tt : Z) (ks : list Z) :
  2 ≤ tt → 2 * tt ≤ 2147483647 → ks ≠ [] →
  ∃ tr, BTree.insert_all (BTree.new tt) ks = Some tr ∧
        (1 ≤ BTree.height tr)%nat ∧
        2 * tt ^ (Z.of_nat (BTree.height tr) - 1) - 1
        ≤ Z.of_nat (length ks)
        ≤ (2 * tt) ^ Z.of_nat (BTree.height tr) - 1.
Proof.
  intros Htt _ Hks. pose proof (degree_positive tt Htt) as Htt1.
  destruct (reachable_root tt Htt1 ks) as (tr & Hall & _ & Hel & Hn & Hroot).
  destruct (Hroot Hks) as (r & h & Hr & Hwf & Hh).
  exists tr. split; [done|]. rewrite Hh. split; [lia|].
  apply Permutation_length in Hel. rewrite <-Hel.
  unfold tree_elems. rewrite Hr, (wf_depth tt _ r Hwf).
  replace (Z.of_nat (S h) - 1) with (Z.of_nat h) by lia. split.
  - apply (wf_keys_root tt Htt1); [done|]. by apply Hn.
  - by apply (wf_keys_upper tt Htt1).
Qed.

Lemma X6_height_logarithmic_witness :
  2 ≤ 2 ∧ 2 * 2 ≤ 2147483647 ∧ [1; 2; 3; 4; 5; 6; 7; 8; 9; 10] ≠ [] ∧
  ∃ tr, BTree.insert_all (BTree.new 2) [1; 2; 3; 4; 5; 6; 7; 8; 9; 10] = Some tr ∧
        (1 ≤ BTree.height tr)%nat ∧
        2 * 2 ^ (Z.of_nat (BTree.height tr) - 1) - 1
        ≤ Z.of_nat (length [1; 2; 3; 4; 5; 6; 7; 8; 9; 10])
        ≤ (2 * 2) ^ Z.of_nat (BTree.height tr) - 1.
Proof.
  split; [lia|]. split; [lia|]. split; [done|].
  apply (X6_height_logarithmic 2 [1; 2; 3; 4; 5; 6; 7; 8; 9; 10]);
    [lia|lia|done].
Defined.

(** X7 (the order of the insertions).  Two sequences of [insert] calls
    with the same keys in a different order (minimum degree [tt >= 2], with
    [2 * tt] an [int]) give trees on which [traverse] emits the same
    sequence and [search] gives the same answers. *)
Theorem X7_insertion_order (tt : Z) (ks1 ks2 : list Z) :
  2 ≤ tt → 2 * tt ≤ 2147483647 → ks1 ≡ₚ ks2 →
  ∃ tr1 tr2 l,
    BTree.insert_all (BTree.new tt) ks1 = Some tr1 ∧
    BTree.insert_all (BTree.new tt) ks2 = Some tr2 ∧
    BTree.traverse tr1 = Some l ∧ BTree.traverse tr2 = Some l ∧
    ∀ k, ∃ b, BTree.search tr1 k = Some b ∧ BTree.search tr2 k = Some b.
Proof.
  intros Htt _ Hperm. pose proof (degree_positive tt Htt) as Htt1.
  destruct (reachable_inv tt Htt ks1) as (tr1 & Hall1 & Hinv1 & Hel1).
  destruct (reachable_inv tt Htt ks2) as (tr2 & Hall2 & Hinv2 & Hel2).
  exists tr1, tr2, (tree_elems tr1). split_and!; try done.
  - apply (tree_traverse_elems tt Htt). by destruct Hinv1.
  - destruct Hinv1 as [Hwf1 Hs1], Hinv2 as [Hwf2 Hs2].
    rewrite (tree_traverse_elems tt Htt tr2 Hwf2). f_equal.
    apply (StronglySorted_unique Z.le); [done|done|].
    by rewrite Hel1, Hel2.
  - intros k. exists (bool_decide (k ∈ tree_elems tr1)).
    rewrite (tree_search_decides tt Htt1 tr1 k Hinv1),
      (tree_search_decides tt Htt1 tr2 k Hinv2).
    split; [done|]. f_equal. apply bool_decide_ext.
    by rewrite Hel1, Hel2, Hperm.
Qed.

Lemma X7_insertion_order_witness :
  2 ≤ 2 ∧ 2 * 2 ≤ 2147483647 ∧ [2; 1; 3; 5; 4] ≡ₚ [1; 2; 3; 4; 5] ∧
  ∃ tr1 tr2 l,
    BTree.insert_all (BTree.new 2) [2; 1; 3; 5; 4] = Some tr1 ∧
    BTree.insert_all (BTree.new 2) [1; 2; 3; 4; 5] = Some tr2 ∧
    BTree.traverse tr1 = Some l ∧ BTree.traverse tr2 = Some l ∧
    ∀ k, ∃ b, BTree.search tr1 k = Some b ∧ BTree.search tr2 k = Some b.
Proof.
  assert (Hperm : [2; 1; 3; 5; 4] ≡ₚ [1; 2; 3; 4; 5]).
  { etrans; [apply perm_swap|]. do 3 apply perm_skip. apply perm_swap. }
  split; [lia|]. split; [lia|]. split; [exact Hperm|].
  apply (X7_insertion_order 2 [2; 1; 3; 5; 4] [1; 2; 3; 4; 5]);
    [lia|lia|exact Hperm].
Defined.

(** X8 (what [insert] leaves alone). On a tree built by [insert] calls
    (minimum degree [tt >= 2], with [2 * tt] an [int]) one more [insert] of
    [k] makes [search] answer [true] for [k] and changes its answer for no
    other key. *)
Theorem X8_insert_search_frame (tt : Z) (ks : list Z) (k : Z) :
  2 ≤ tt → 2 * tt ≤ 2147483647 →
  ∃ tr tr',
    BTree.insert_all (BTree.new tt) ks = Some tr ∧
    BTree.insert tr k = Some tr' ∧
    BTree.search tr' k = Some true ∧
    ∀ k', k' ≠ k →
      ∃ b, BTree.search tr k' = Some b ∧ BTree.search tr' k' = Some b.
Proof.
  intros Htt _. pose proof (degree_positive tt Htt) as Htt1.
  destruct (reachable_inv tt Htt ks) as (tr & Hall & Hinv & Hel).
  destruct (insert_inv tt Htt tr k Hinv) as (tr' & Hins & Hinv' & Hel').
  exists tr, tr'. split_and!; try done.
  - apply (tree_search_found tt Htt); [done|].
    rewrite Hel', insert_sorted_perm. by left.
  - intros k' Hne. exists (bool_decide (k' ∈ tree_elems tr)).
    rewrite (tree_search_decides tt Htt1 tr k' Hinv),
      (tree_search_decides tt Htt1 tr' k' Hinv').
    split; [done|]. f_equal. apply bool_decide_ext.
    rewrite Hel', insert_sorted_perm, elem_of_cons.
    split; [intros [?|?]; [congruence|done]|auto].
Qed.

Lemma X8_insert_search_frame_witness :
  2 ≤ 2 ∧ 2 * 2 ≤ 2147483647 ∧
  ∃ tr tr',
    BTree.insert_all (BTree.new 2) [3; 1; 4; 1; 5] = Some tr ∧
    BTree.insert tr 9 = Some tr' ∧
    BTree.search tr' 9 = Some true ∧
    ∀ k', k' ≠ 9 →
      ∃ b, BTree.search tr k' = Some b ∧ BTree.search tr' k' = Some b.
Proof.
  split; [lia|]. split; [lia|].
  apply (X8_insert_search_frame 2 [3; 1; 4; 1; 5] 9); lia.
Defined.

(** X9 ([split_child] on a well-formed node).  Let [p] be the root of a
    well-formed subtree of [h] levels (minimum degree [tt >= 2]) that is
    not full, and [y] its child in slot [i], full.  Then [split_child(i, y)]
    returns, [p] is still the root of a well-formed subtree of [h] levels,
    it has one key more, and [traverse] emits the same sequence as before. *)
Theorem X9_split_child_preserves (tt : Z) (h : nat) (p y : BTreeNode.node)
    (i : Z) :
  2 ≤ tt → wf tt h p → BTreeNode.n p < 2 * tt - 1 →
  child_at p i y → BTreeNode.n y = 2 * tt - 1 →
  ∃ p' l,
    BTreeNode.split_child p i = Some p' ∧
    wf tt h p' ∧ BTreeNode.depth p' = BTreeNode.depth p ∧
    BTreeNode.n p' = BTreeNode.n p + 1 ∧
    BTreeNode.traverse h p = Some l ∧ BTreeNode.traverse h p' = Some l.
Proof.
  intros Htt Hwf Hfull Hchild Hyfull.
  pose proof (degree_positive tt Htt) as Htt1.
  destruct h as [|h]; [done|].
  destruct (split_child_wf tt Htt1 h p i y Hwf Hfull Hchild Hyfull)
    as (p' & Hsplit & Hwf' & Hn & Hel).
  exists p', (elems (S h) p). split_and!; try done.
  - by rewrite (wf_depth tt _ p Hwf), (wf_depth tt _ p' Hwf').
  - by apply (traverse_elems tt Htt1).
  - rewrite <-Hel. by apply (traverse_elems tt Htt1).
Qed.

Lemma X9_split_child_preserves_witness :
  let y := BTreeNode.mk 2 true 3 [1; 2; 3] [None; None; None; None] in
  let p := BTreeNode.mk 2 false 0 [0; 0; 0] [Some y; None; None; None] in
  ∃ p' l,
    BTreeNode.split_child p 0 = Some p' ∧
    wf 2 2 p' ∧ BTreeNode.depth p' = BTreeNode.depth p ∧
    BTreeNode.n p' = BTreeNode.n p + 1 ∧
    BTreeNode.traverse 2 p = Some l ∧ BTreeNode.traverse 2 p' = Some l.
Proof.
  intros y p. apply (X9_split_child_preserves 2 2 p y 0).
  - lia.
  - simpl. split_and!; try done. exists [y]. split_and!; try done.
    constructor; [|constructor]. simpl. split_and!; try done; lia.
  - simpl. lia.
  - split_and!; try done; simpl; lia.
  - done.
Defined.

(** X10 ([insert_non_full] on a well-formed node).  Let [x] be the root of
    a well-formed subtree of [h] levels (minimum degree [tt >= 2]) that is
    not full.  Then [insert_non_full(k)] returns, [x] is still the root of
    a well-formed subtree of [h] levels with the same or one more key, and
    [traverse] emits the former sequence with one [k] more, at its sorted
    position if that sequence was sorted. *)
Theorem X10_insert_non_full_contract (tt : Z) (h : nat) (x : BTreeNode.node)
    (k : Z) :
  2 ≤ tt → wf tt h x → BTreeNode.n x < 2 * tt - 1 →
  ∃ x' l l',
    BTreeNode.insert_non_full h x k = Some x' ∧
    wf tt h x' ∧
    BTreeNode.n x ≤ BTreeNode.n x' ≤ BTreeNode.n x + 1 ∧
    BTreeNode.traverse h x = Some l ∧ BTreeNode.traverse h x' = Some l' ∧
    l' ≡ₚ k :: l ∧
    (Sorted Z.le l → l' = insert_sorted k l).
Proof.
  intros Htt Hwf Hfull. pose proof (degree_positive tt Htt) as Htt1.
  destruct (insert_non_full_ok tt Htt1 h x k h Hwf Hfull)
    as (x' & Hins & Hwf' & _ & Hat); [done|].
  exists x', (elems h x), (elems h x'). split_and!; try done.
  - apply insert_non_full_n in Hins. lia.
  - apply insert_non_full_n in Hins. lia.
  - by apply (traverse_elems tt Htt1).
  - by apply (traverse_elems tt Htt1).
  - destruct Hat as (L & R & -> & -> & _). by rewrite Permutation_middle.
  - intros Hs. apply inserted_at_insert_sorted; [|done].
    by apply Sorted_StronglySorted; [apply _|].
Qed.

Lemma X10_insert_non_full_contract_witness :
  let x := BTreeNode.mk 2 true 2 [1; 3; 0] [None; None; None; None] in
  ∃ x' l l',
    BTreeNode.insert_non_full 1 x 2 = Some x' ∧
    wf 2 1 x' ∧
    BTreeNode.n x ≤ BTreeNode.n x' ≤ BTreeNode.n x + 1 ∧
    BTreeNode.traverse 1 x = Some l ∧ BTreeNode.traverse 1 x' = Some l' ∧
    l' ≡ₚ 2 :: l ∧
    (Sorted Z.le l → l' = insert_sorted 2 l).
Proof.
  intros x. apply (X10_insert_non_full_contract 2 1 x 2).
  - lia.
  - simpl. split_and!; try done; lia.
  - simpl. lia.
Defined.

(** X11 ([insert_non_full] on a full leaf).  The contract of
    [insert_non_full], that the node is not full, is needed: on a leaf
    with [n == 2 * t - 1] keys in a key vector of the constructor's size
    the method writes [keys[2 * t - 1]], past the end of the vector, for
    every key [k]. *)
Theorem X11_insert_non_full_full_leaf (x : BTreeNode.node) (k : Z)
    (fuel : nat) :
  BTreeNode.is_leaf x = true →
  1 ≤ BTreeNode.t x →
  length (BTreeNode.keys x) = Z.to_nat (2 * BTreeNode.t x - 1) →
  BTreeNode.n x = 2 * BTreeNode.t x - 1 →
  BTreeNode.insert_non_full fuel x k = None.
Proof.
  intros Hleaf Ht Hlen Hn. apply insert_non_full_full_leaf; [done|lia].
Qed.

Lemma X11_insert_non_full_full_leaf_witness :
  BTreeNode.insert_non_full 5
    (BTreeNode.mk 2 true 3 [1; 2; 3] [None; None; None; None]) 4 = None.
Proof.
  apply (X11_insert_non_full_full_leaf
           (BTreeNode.mk 2 true 3 [1; 2; 3] [None; None; None; None]) 4 5);
    simpl; (done || lia).
Defined.

(** X12 (the destructors). On a tree built by [insert] calls (minimum degree
    [tt >= 2], with [2 * tt] an [int]) the destructor of [BTree] returns and
    frees every node linked into the tree, each subtree before its root and
    the root last: the loop over the slots [0 .. n] of the internal nodes
    misses no node, as no slot past [n] and no slot of a leaf holds one.
    Every node of the tree is among the freed ones. *)
Theorem X12_destructor_frees_all (tt : Z) (ks : list Z) :
  2 ≤ tt → 2 * tt ≤ 2147483647 →
  ∃ tr, BTree.insert_all (BTree.new tt) ks = Some tr ∧
        BTree.destroy tr = Some (tree_nodes tr) ∧
        ∀ y, in_tree tr y → y ∈ tree_nodes tr.
Proof.
  intros Htt _. pose proof (degree_positive tt Htt) as Htt1.
  destruct (reachable_inv tt Htt ks) as (tr & Hall & [[_ Hr] _] & _).
  exists tr. split; [done|]. unfold BTree.destroy, tree_nodes, in_tree.
  destruct (BTree.root tr) as [r|]; cycle 1.
  { split; [done|]. by intros y (r & ? & _). }
  destruct Hr as [h Hr]. split.
  - rewrite (wf_depth tt h r Hr).
    by rewrite (destroy_linked tt Htt1 h r h Hr).
  - intros y (r' & [= <-] & Hpath). rewrite elem_of_app, list_elem_of_singleton.
    destruct (descendant_linked r y Hpath); auto.
Qed.

Lemma X12_destructor_frees_all_witness :
  2 ≤ 2 ∧ 2 * 2 ≤ 2147483647 ∧
  ∃ tr, BTree.insert_all (BTree.new 2) [1; 2; 3; 4; 5; 6; 7; 8; 9; 10] = Some tr ∧
        BTree.destroy tr = Some (tree_nodes tr) ∧
        ∀ y, in_tree tr y → y ∈ tree_nodes tr.
Proof.
  split; [lia|]. split; [lia|].
  apply (X12_destructor_frees_all 2 [1; 2; 3; 4; 5; 6; 7; 8; 9; 10]); lia.
Defined.

(** X13 (the walk of the test program).  [get_all_keys] of
    [tests/test_btree.cpp], which walks the tree with
    [collect_keys_recursive], returns on every tree exactly the sequence
    that [traverse] emits, and is undefined exactly where [traverse] is. *)
Theorem X13_get_all_keys_traverse (tr : BTree.tree) :
  Tests.get_all_keys tr = BTree.traverse tr.
Proof. apply get_all_keys_traverse. Qed.

(** X14 (a minimum degree below 2).  The constructor of [BTree] does not
    reject a minimum degree below [2].  With a degree of [0] or less the
    first [insert] fails, in the [resize] of the constructor of the node.
    With degree [1] every sequence of [insert] calls returns, [traverse]
    emits the keys sorted and [search] decides membership, but the tree is
    as high as the number of keys it holds. *)
Theorem X14_degree_below_two :
  (∀ tt k, tt ≤ 0 → BTree.insert (BTree.new tt) k = None) ∧
  (∀ ks, ∃ tr l,
     BTree.insert_all (BTree.new 1) ks = Some tr ∧
     BTree.traverse tr = Some l ∧ l ≡ₚ ks ∧ Sorted Z.le l ∧
     (∀ k, BTree.search tr k = Some (bool_decide (k ∈ ks))) ∧
     BTree.height tr = length ks).
Proof.
  split.
  - intros tt k Htt. unfold BTree.insert, BTree.new, BTreeNode.new_node.
    simpl. by rewrite decide_False by lia.
  - intros ks.
    assert (Hone : 1 ≤ 1) by lia.
    destruct (reachable_inv' 1 Hone ks) as (tr & Hall & Hinv & Hel).
    exists tr, (tree_elems tr). split_and!; try done.
    + apply (tree_traverse_elems' 1 Hone). by destruct Hinv.
    + apply StronglySorted_Sorted. by destruct Hinv.
    + intros k. rewrite (tree_search_decides 1 Hone) by done.
      f_equal. apply bool_decide_ext. by rewrite Hel.
    + destruct (insert_all_height_one 1 Hone ks (BTree.new 1))
        as (tr' & Hall' & Hh); [done|apply tree_inv_new|done|].
      by assert (tr' = tr) as -> by congruence.
Qed.
